(** * trans_batch: field classification, block translation and rewriting

    A shallow embedding of [trans_batch.py].  Python [str] values are
    modelled as [string]; a character is its code point, so the model
    covers the texts whose code points lie in 0..255.  Lists of lines and
    lists of texts are [list string]; the only in-place list update of
    the source, [content[line_num] = new_line], is stdpp's list insert
    under the source's own bounds check. *)

From Stdlib Require Import Strings.String Strings.Ascii.
From stdpp Require Import base list sorting.
From Equations Require Import Equations.

Local Open Scope list_scope.

(** ** Characters and the [str] methods the program calls *)

Module Str.

(** [str.isspace] on one character: the code points 9..13, 28..32, 133
    and 160 are the white space of the range the model covers. *)
Definition is_space (c : ascii) : bool :=
  let n := nat_of_ascii c in
  ((9 <=? n) && (n <=? 13)) || ((28 <=? n) && (n <=? 32))
  || (n =? 133) || (n =? 160).

(** [\d] of [re] on a [str] pattern, and the digits [float] reads. *)
Definition is_decimal (c : ascii) : bool :=
  let n := nat_of_ascii c in (48 <=? n) && (n <=? 57).

(** [str.isdigit] on one character: the decimal digits and the
    superscripts 178, 179 and 185. *)
Definition is_digit (c : ascii) : bool :=
  let n := nat_of_ascii c in
  is_decimal c || (n =? 178) || (n =? 179) || (n =? 185).

Definition is_lower (c : ascii) : bool :=
  let n := nat_of_ascii c in (97 <=? n) && (n <=? 122).

Definition is_upper (c : ascii) : bool :=
  let n := nat_of_ascii c in (65 <=? n) && (n <=? 90).

(** The class [[a-zA-Z]]. *)
Definition is_ascii_letter (c : ascii) : bool := is_lower c || is_upper c.

(** [str.upper] and [str.lower], one character at a time.  Only the
    letters a..z and A..Z are mapped: the program compares the result
    with digits, signs and ASCII letters only, and no other character of
    the range changes into one of those. *)
Definition upper_char (c : ascii) : ascii :=
  if is_lower c then ascii_of_nat (nat_of_ascii c - 32) else c.

Definition lower_char (c : ascii) : ascii :=
  if is_upper c then ascii_of_nat (nat_of_ascii c + 32) else c.

Fixpoint map (f : ascii -> ascii) (s : string) : string :=
  match s with
  | EmptyString => EmptyString
  | String c s' => String (f c) (map f s')
  end.

Definition upper : string -> string := map upper_char.
Definition lower : string -> string := map lower_char.

Fixpoint forallb (p : ascii -> bool) (s : string) : bool :=
  match s with
  | EmptyString => true
  | String c s' => p c && forallb p s'
  end.

Fixpoint existsb (p : ascii -> bool) (s : string) : bool :=
  match s with
  | EmptyString => false
  | String c s' => p c || existsb p s'
  end.

Definition is_empty (s : string) : bool :=
  match s with EmptyString => true | _ => false end.

(** [s.lstrip(chars)] for the characters satisfying [p]. *)
Fixpoint lstrip_with (p : ascii -> bool) (s : string) : string :=
  match s with
  | EmptyString => EmptyString
  | String c s' => if p c then lstrip_with p s' else s
  end.

(** [s.rstrip(chars)]: a character is dropped when it satisfies [p] and
    nothing is kept after it. *)
Fixpoint rstrip_with (p : ascii -> bool) (s : string) : string :=
  match s with
  | EmptyString => EmptyString
  | String c s' =>
      let r := rstrip_with p s' in
      if is_empty r && p c then EmptyString else String c r
  end.

(** [s.strip()] *)
Definition strip (s : string) : string :=
  rstrip_with is_space (lstrip_with is_space s).

(** [s.isdigit()]: at least one character, all of them digits. *)
Definition isdigit (s : string) : bool :=
  negb (is_empty s) && forallb is_digit s.

(** [s.startswith(p)] *)
Definition startswith (p s : string) : bool := String.prefix p s.

Fixpoint last_char (s : string) : option ascii :=
  match s with
  | EmptyString => None
  | String c EmptyString => Some c
  | String _ s' => last_char s'
  end.

(** [s.endswith(c)] for a one-character suffix. *)
Definition endswith_char (c : ascii) (s : string) : bool :=
  match last_char s with
  | Some d => Ascii.eqb d c
  | None => false
  end.

(** [s.endswith(suffix)] *)
Definition endswith (suffix s : string) : bool :=
  (String.length suffix <=? String.length s)
  && String.eqb (String.substring (String.length s - String.length suffix)
                                  (String.length suffix) s)
                suffix.

(** [sub in s] *)
Fixpoint contains (sub s : string) : bool :=
  String.prefix sub s
  || match s with
     | EmptyString => false
     | String _ s' => contains sub s'
     end.

Fixpoint drop (n : nat) (s : string) : string :=
  match n, s with
  | S k, String _ s' => drop k s'
  | _, _ => s
  end.

(** The first occurrence of [sep] in [s]: the text before it and the
    text after it. *)
Fixpoint partition (sep s : string) : option (string * string) :=
  if String.prefix sep s then Some (EmptyString, drop (String.length sep) s)
  else match s with
       | EmptyString => None
       | String c s' =>
           match partition sep s' with
           | Some (before, after) => Some (String c before, after)
           | None => None
           end
       end.

(** [s.split(sep, 1)] *)
Definition split_once (sep s : string) : list string :=
  match partition sep s with
  | Some (before, after) => [before; after]
  | None => [s]
  end.

(** [s.split(sep)] for a separator that is not empty: the occurrences
    are taken leftmost first and do not overlap.  [skip] counts the
    characters of an occurrence found already that are still to be
    passed over. *)
Fixpoint split_from (sep : string) (skip : nat) (s : string) : list string :=
  match s with
  | EmptyString => [EmptyString]
  | String c s' =>
      match skip with
      | S k => split_from sep k s'
      | O =>
          if String.prefix sep s
          then EmptyString :: split_from sep (String.length sep - 1) s'
          else match split_from sep 0 s' with
               | seg :: segs => String c seg :: segs
               | [] => [String c EmptyString]
               end
      end
  end.

Definition split (sep s : string) : list string := split_from sep 0 s.

(** [sep.join(parts)] *)
Definition join (sep : string) (parts : list string) : string :=
  String.concat sep parts.

(** [s.replace(old, new)] for [old] not empty, with the same leftmost,
    non-overlapping occurrences as [split]. *)
Definition replace (old new s : string) : string := join new (split old s).

End Str.

Local Open Scope string_scope.

(** ** Number recognition: [float] and the three patterns *)

Module Numeric.
Import Str.

Definition is_sign (c : ascii) : bool := Ascii.eqb c "+" || Ascii.eqb c "-".

(** An optional [[+-]] at the front. *)
Definition opt_sign (s : string) : string :=
  match s with
  | String c s' => if is_sign c then s' else s
  | EmptyString => s
  end.

(** An optional character [d] at the front. *)
Definition opt_char (d : ascii) (s : string) : string :=
  match s with
  | String c s' => if Ascii.eqb c d then s' else s
  | EmptyString => s
  end.

(** [$] of [re]: the end of the text, or the line feed that ends it. *)
Definition at_end (s : string) : bool :=
  match s with
  | EmptyString => true
  | String c EmptyString => Ascii.eqb c (ascii_of_nat 10)
  | _ => false
  end.

(** [\d+] at the front: what follows it, when there is a digit. *)
Definition decimals1 (s : string) : option string :=
  match s with
  | String c s' => if is_decimal c then Some (lstrip_with is_decimal s') else None
  | EmptyString => None
  end.

(** [\d*] at the front. *)
Definition decimals0 (s : string) : string := lstrip_with is_decimal s.

(** [re.match(r'^[+-]?\d+\.?\d*E[+-]?\d*$', s)] *)
Definition match_scientific (s : string) : bool :=
  match decimals1 (opt_sign s) with
  | Some r =>
      match decimals0 (opt_char "." r) with
      | String c r' => Ascii.eqb c "E" && at_end (decimals0 (opt_sign r'))
      | EmptyString => false
      end
  | None => false
  end.

(** [re.match(r'^[+-]?\d+[EN]$', s)] *)
Definition match_suffixed (s : string) : bool :=
  match decimals1 (opt_sign s) with
  | Some (String c r) => (Ascii.eqb c "E" || Ascii.eqb c "N") && at_end r
  | _ => false
  end.

(** [re.match(r'^\d+/\d+$', s)] *)
Definition match_fraction (s : string) : bool :=
  match decimals1 s with
  | Some (String c r) =>
      Ascii.eqb c "/"
      && match decimals1 r with
         | Some r' => at_end r'
         | None => false
         end
  | _ => false
  end.

(** The text [float] accepts, after its own stripping of white space:
<<
   floatvalue  ::= [sign] (floatnumber | "inf" | "infinity" | "nan")
   floatnumber ::= number [("e" | "E") [sign] digitpart]
   number      ::= [digitpart] "." digitpart | digitpart ["."]
   digitpart   ::= digit (["_"] digit)*
>>
    with the three words in any case.  [digit_tail] reads [(["_"] digit)*]. *)
Fixpoint digit_tail (s : string) : string :=
  match s with
  | String c s' =>
      if is_decimal c then digit_tail s'
      else if Ascii.eqb c "_" then
        match s' with
        | String d s'' => if is_decimal d then digit_tail s'' else s
        | EmptyString => s
        end
      else s
  | EmptyString => s
  end.

Definition digitpart (s : string) : option string :=
  match s with
  | String c s' => if is_decimal c then Some (digit_tail s') else None
  | EmptyString => None
  end.

Definition number (s : string) : option string :=
  match digitpart s with
  | Some r =>
      match r with
      | String c r' =>
          if Ascii.eqb c "."
          then match digitpart r' with
               | Some r'' => Some r''
               | None => Some r'
               end
          else Some r
      | EmptyString => Some r
      end
  | None =>
      match s with
      | String c r' => if Ascii.eqb c "." then digitpart r' else None
      | EmptyString => None
      end
  end.

Definition exponent (s : string) : bool :=
  match s with
  | String c r =>
      (Ascii.eqb c "e" || Ascii.eqb c "E")
      && match digitpart (opt_sign r) with
         | Some r' => is_empty r'
         | None => false
         end
  | EmptyString => false
  end.

(** [float(text)] returns (true) or raises [ValueError] (false). *)
Definition float_parses (text : string) : bool :=
  let body := opt_sign (strip text) in
  let word := lower body in
  String.eqb word "inf" || String.eqb word "infinity" || String.eqb word "nan"
  || match number body with
     | Some r => is_empty r || exponent r
     | None => false
     end.

End Numeric.

(** ** [is_number_or_scientific] *)

Definition is_number_or_scientific (text : string) : bool :=
  let text := Str.strip text in
  if Str.is_empty text || String.eqb text "-" || String.eqb text "+" then true
  else if Str.isdigit (Str.lstrip_with Numeric.is_sign text) then true
  else if Numeric.float_parses text then true
  else if Numeric.float_parses (Str.replace "," "." text) then true
  else if Str.endswith_char "E" (Str.upper text)
          || Numeric.match_scientific (Str.upper text) then true
  else if Numeric.match_suffixed (Str.upper text) then true
  else if Numeric.match_fraction text then true
  else false.

(** ** Translatable items and the extraction pass *)

(** The [type] entry of an item, with the entries only that type has:
    [key] for the two keyed shapes, [column_index] for a cell. *)
Inductive item_type : Type :=
  | key_value (key : string)
  | colon_value (key : string)
  | csv_cell (column_index : nat)
  | full_line.

Module Item.
Record t : Type := mk {
  file_path : string;
  line_num : nat;
  value : string;
  original_line : string;
  type : item_type
}.
End Item.

(** [re.search(r'[a-zA-Z]', s)] *)
Definition has_letter (s : string) : bool := Str.existsb Str.is_ascii_letter s.

(** ['[' in s and ']' in s] *)
Definition bracketed (s : string) : bool :=
  Str.contains "[" s && Str.contains "]" s.

(** One field of a semicolon line. *)
Definition extract_cell (file_path : string) (line_num : nat)
    (original_line : string) (col_index : nat) (part : string) : list Item.t :=
  let part := Str.strip part in
  if Str.is_empty part || String.eqb part "-" || is_number_or_scientific part
     || (String.length part <? 2)%nat
  then []
  else if bracketed part then []
  else if has_letter part
  then [Item.mk file_path line_num part original_line (csv_cell col_index)]
  else [].

(** The body of the loop over the lines of a file.  Unpacking
    [line.split('=', 1)] into two names needs two pieces; under the test
    ['=' in line] there are two (see [split_once_contains]). *)
Definition extract_line (file_path : string) (line_num : nat)
    (original_line : string) : list Item.t :=
  let line := Str.strip original_line in
  if Str.is_empty line || Str.startswith "#" line || Str.startswith "[" line
     || Str.startswith "//" line
  then []
  else if Str.contains "=" line then
    match Str.split_once "=" line with
    | [key; value] =>
        let value := Str.strip value in
        if Str.is_empty value || Str.startswith "C:\" value
           || is_number_or_scientific value || (String.length value <? 2)%nat
        then []
        else if bracketed value then []
        else if has_letter value && negb (Str.startswith "http" value)
        then [Item.mk file_path line_num value original_line
                      (key_value (Str.strip key))]
        else []
    | _ => []
    end
  else if Str.contains ";" line then
    concat (imap (extract_cell file_path line_num original_line)
                 (Str.split ";" line))
  else if Str.contains ": " line then
    match Str.split_once ": " line with
    | [key; value] =>
        let value := Str.strip value in
        if Str.is_empty value || is_number_or_scientific value
           || (String.length value <? 2)%nat
        then []
        else if bracketed value then []
        else if has_letter value
        then [Item.mk file_path line_num value original_line
                      (colon_value (Str.strip key))]
        else []
    | _ => []
    end
  else if bracketed line then []
  else if has_letter line && (2 <=? String.length line)%nat
  then [Item.mk file_path line_num line original_line full_line]
  else [].

(** [extract_translatable_content]: [content] is what the reader found,
    [None] when none of the encodings decodes the file. *)
Definition extract_translatable_content (file_path : string)
    (content : option (list string)) : list Item.t :=
  match content with
  | None => []
  | Some lines => concat (imap (extract_line file_path) lines)
  end.

Definition LF : string := String (ascii_of_nat 10) EmptyString.

(** ** The batch translator *)

(** What one request to the translation service does: it returns a text
    (a result [None] is tested like the empty text, and stands as it), or
    raises an exception whose [str] is [description]. *)
Inductive outcome : Type :=
  | Returned (translated : string)
  | Raised (description : string).

(** What the translator leaves behind: the number of requests sent so far
    and the delays slept, in order. *)
Record world : Type := World { calls : nat; slept : list nat }.

Definition request (w : world) : world := World (S (calls w)) (slept w).
Definition sleep (wait_time : nat) (w : world) : world :=
  World (calls w) (slept w ++ [wait_time])%list.

Definition network_keywords : list string :=
  ["network"; "connection"; "timeout"; "ssl"; "handshake"; "keyboardinterrupt"].

(** [any(keyword in error_msg for keyword in [...])] on [str(e).lower()] *)
Definition is_network_error (description : string) : bool :=
  List.existsb (fun keyword => Str.contains keyword (Str.lower description))
               network_keywords.

(** The separator between the texts of a block. *)
Definition SEP : string := LF ++ LF.

(** The loop that fills up a short answer with the texts of the block:
    [while len(block_translations) < len(current_block)].  Under the
    loop's test the index [len(block_translations)] is in the block. *)
Equations? pad (block_translations current_block : list string) : list string
  by wf (length current_block - length block_translations) lt :=
pad block_translations current_block
  with lt_dec (length block_translations) (length current_block) := {
  | left _ =>
      pad (block_translations
             ++ [nth (length block_translations) current_block EmptyString])%list
          current_block
  | right _ => block_translations }.
Proof. rewrite length_app. simpl. lia. Qed.

(** The default values of [max_block_size] and [max_retries]. *)
Definition default_max_block_size : nat := 3000.
Definition default_max_retries : nat := 3.

Section Translator.

(** The service is any function of the request's rank and text.  The
    messages printed, and the block counter that only they show, are
    left out. *)
Variable backend : nat -> string -> outcome.
Variable max_block_size max_retries : nat.

Equations? translate_block_with_retry (block_text : string) (retry_count : nat)
    (w : world) : option string * world
  by wf (max_retries - retry_count) lt :=
translate_block_with_retry block_text retry_count w
  with backend (calls w) block_text := {
  | Returned translated_block => (Some translated_block, request w)
  | Raised e with is_network_error e := {
    | true with lt_dec retry_count max_retries := {
      | left _ =>
          translate_block_with_retry block_text (S retry_count)
            (sleep ((retry_count + 1) * 2) (request w))
      | right _ => (None, request w) }
    | false => (None, request w) } }.
Proof. lia. Qed.

(** Sending one block and pairing the answer with the block's texts;
    the source has these statements twice, inside the loop and after it.
    [if translated_block:] fails on [None] and on the empty text. *)
Definition translate_block (current_block : list string) (w : world)
  : list string * world :=
  let block_text := Str.join SEP current_block in
  let '(translated_block, w) := translate_block_with_retry block_text 0 w in
  match translated_block with
  | Some translated =>
      if Str.is_empty translated then (current_block, w)
      else
        let block_translations := Str.split SEP (Str.strip translated) in
        (take (length current_block) (pad block_translations current_block), w)
  | None => (current_block, w)
  end.

Definition is_nil (l : list string) : bool :=
  match l with [] => true | _ => false end.

(** The loop over [texts]. *)
Fixpoint blocks_loop (texts translated_texts current_block : list string)
    (current_length : nat) (w : world) : list string * list string * world :=
  match texts with
  | [] => (translated_texts, current_block, w)
  | text :: texts' =>
      let '(translated_texts, current_block, current_length, w) :=
        if (max_block_size <? current_length + String.length text)%nat
           && negb (is_nil current_block)
        then
          let '(block_out, w) := translate_block current_block w in
          ((translated_texts ++ block_out)%list, [], 0, w)
        else (translated_texts, current_block, current_length, w) in
      blocks_loop texts' translated_texts (current_block ++ [text])%list
                  (current_length + String.length text + 2) w
  end.

Definition translate_texts_in_blocks (texts : list string) (w : world)
  : list string * world :=
  let '(translated_texts, current_block, w) := blocks_loop texts [] [] 0 w in
  if negb (is_nil current_block)
  then
    let '(block_out, w) := translate_block current_block w in
    ((translated_texts ++ block_out)%list, w)
  else (translated_texts, w).

End Translator.

(** ** The rewriter *)

Module Update.
Record t : Type := mk {
  line_num : nat;
  original_value : string;
  translated_value : string;
  original_line : string;
  type : item_type
}.
End Update.

(** The updates [process_files_batch] builds, one per item, from the
    texts the translator returned ([translated_texts[i]], the list made
    as long as [items] first with the items' own values). *)
Fixpoint make_updates (items : list Item.t) (translated_texts : list string)
  : list Update.t :=
  match items with
  | [] => []
  | item :: items' =>
      let translated :=
        match translated_texts with
        | t :: _ => t
        | [] => Item.value item
        end in
      Update.mk (Item.line_num item) (Item.value item) translated
                (Item.original_line item) (Item.type item)
      :: make_updates items' (tail translated_texts)
  end.

(** The line an update writes. *)
Definition new_line (update : Update.t) : string :=
  let translated_value := Update.translated_value update in
  match Update.type update with
  | key_value key => key ++ "=" ++ translated_value ++ LF
  | colon_value key => key ++ ": " ++ translated_value ++ LF
  | csv_cell col_index =>
      let parts := Str.split ";" (Str.strip (Update.original_line update)) in
      let parts :=
        if (col_index <? length parts)%nat
        then <[col_index := translated_value]> parts
        else parts in
      Str.join ";" parts ++ LF
  | full_line => translated_value ++ LF
  end.

(** The body of [for update in updates]. *)
Definition apply_update (content : list string) (update : Update.t)
  : list string :=
  if (Update.line_num update <? length content)%nat
  then <[Update.line_num update := new_line update]> content
  else content.

Definition apply_updates (content : list string) (updates : list Update.t)
  : list string :=
  fold_left apply_update updates content.

(** [file_path.replace('.dat', '_translated.dat')
             .replace('.txt', '_translated.txt')] *)
Definition output_file (file_path : string) : string :=
  Str.replace ".txt" "_translated.txt"
    (Str.replace ".dat" "_translated.dat" file_path).

Inductive encoding : Type := utf_8 | utf_16 | latin_1 | cp1252.

(** The file written: its name, its encoding, and the list handed to
    [f.writelines], one entry for each line read.  An entry is one line
    of the file when it holds one line feed, at its end. *)
Record written : Type := Written {
  written_name : string;
  written_encoding : encoding;
  written_lines : list string
}.

(** [update_file_with_translations]: [content] is what the reader found,
    the encoding that decoded the file and its lines, or [None]; the
    result is the file written, if any. *)
Definition update_file_with_translations (file_path : string)
    (content : option (encoding * list string)) (updates : list Update.t)
  : option written :=
  match content with
  | None => None
  | Some (used_encoding, lines) =>
      Some (Written (output_file file_path) utf_8 (apply_updates lines updates))
  end.


(** [process_files_batch], for one file: extraction, one call of the
    translator with its default sizes, the updates, the rewriting.  A
    file without items is reported and left alone. *)
Definition process_file (backend : nat -> string -> outcome)
    (file_path : string) (content : option (encoding * list string))
  : option written :=
  let items := extract_translatable_content file_path (snd <$> content) in
  match items with
  | [] => None
  | _ =>
      let texts_to_translate := List.map Item.value items in
      let translated_texts :=
        (translate_texts_in_blocks backend default_max_block_size
           default_max_retries texts_to_translate (World 0 [])).1 in
      update_file_with_translations file_path content
        (make_updates items translated_texts)
  end.

(** ** The bytes of a text *)




(** ** The choice of the files and the analysis pass *)

(** [l[:n]] for an [int] that may be negative. *)
Definition slice_to {A : Type} (n : Z) (l : list A) : list A :=
  if (n <? 0)%Z then take (Z.to_nat (Z.of_nat (length l) + n)) l
  else take (Z.to_nat n) l.

(** The first statements of [process_files_batch] and of
    [analyze_files_only]: [dat_files] and [txt_files] are what the two
    calls of [glob] return, [max_files] is [None] when the option is not
    given.  [if max_files:] fails on [None] and on 0; under the test
    [start_index > 0] the slice [all_files[start_index:]] drops that many
    names. *)
Definition select_files (dat_files txt_files : list string)
    (max_files : option Z) (start_index : Z) : list string :=
  let all_files := (dat_files ++ txt_files)%list in
  let all_files :=
    List.filter (λ f, negb (Str.endswith "_translated.dat" f)
                      && negb (Str.endswith "_translated.txt" f)) all_files in
  let all_files :=
    if (0 <? start_index)%Z then drop (Z.to_nat start_index) all_files
    else all_files in
  match max_files with
  | Some n => if (n =? 0)%Z then all_files else slice_to n all_files
  | None => all_files
  end.

Definition has_items (items : list Item.t) : bool :=
  match items with [] => false | _ => true end.

(** The loop [for file_path in all_files], which both functions have:
    [fs] is what the reader finds at a path. *)
Fixpoint analyse_loop (fs : string → option (encoding * list string))
    (all_files : list string)
    (files_with_content : list (string * list Item.t))
    (files_without_content : list string)
  : list (string * list Item.t) * list string :=
  match all_files with
  | [] => (files_with_content, files_without_content)
  | file_path :: all_files' =>
      let items := extract_translatable_content file_path (snd <$> fs file_path) in
      if has_items items
      then analyse_loop fs all_files'
             (files_with_content ++ [(file_path, items)])%list
             files_without_content
      else analyse_loop fs all_files' files_with_content
             (files_without_content ++ [file_path])%list
  end.

(** What [analyze_files_only] reports: the number of files found, the
    two lists, and the total it prints when a file has content. *)
Record report : Type := Report {
  found : nat;
  files_with_content : list (string * list Item.t);
  files_without_content : list string;
  total_items : option nat
}.

Definition analyze_files_only (fs : string → option (encoding * list string))
    (dat_files txt_files : list string) (max_files : option Z)
    (start_index : Z) : option report :=
  let all_files := select_files dat_files txt_files max_files start_index in
  match all_files with
  | [] => None
  | _ =>
      let '(files_with_content, files_without_content) :=
        analyse_loop fs all_files [] [] in
      let total_items :=
        match files_with_content with
        | [] => None
        | _ => Some (fold_left (λ total_items '(file_path, items),
                                  total_items + length items)
                               files_with_content 0)
        end in
      Some (Report (length all_files) files_with_content
                   files_without_content total_items)
  end.

(** ** Notions used to state the properties *)

(** [paired backend text o]: [o] stands for [text] in the output, as the
    text itself or as the segment, at the place [text] has in its block,
    of the answer to a request carrying that block. *)
Definition paired (backend : nat -> string -> outcome) (text o : string)
  : Prop :=
  o = text
  ∨ ∃ k block j blob,
      backend k (Str.join SEP block) = Returned blob
      ∧ block !! j = Some text
      ∧ Str.split SEP (Str.strip blob) !! j = Some o.

(** Services for the examples: one answers every request with the
    request in upper case, one does so after two timeouts, one never
    answers. *)
Definition shouting (k : nat) (request_text : string) : outcome :=
  Returned (Str.upper request_text).

Definition flaky (k : nat) (request_text : string) : outcome :=
  if (k <? 2)%nat then Raised "Read timeout"
  else Returned (Str.upper request_text).

Definition unreachable (k : nat) (request_text : string) : outcome :=
  Raised "Connection refused".

Definition refusing (k : nat) (request_text : string) : outcome :=
  Raised "text length exceeds the limit".

(** The lines the extraction passes over: empty ones, comments and
    section titles (the first test of the loop body). *)
Definition skipped (line : string) : bool :=
  Str.is_empty line || Str.startswith "#" line || Str.startswith "[" line
  || Str.startswith "//" line.

(** The tests a value after [=] goes through before an item is emitted,
    taken together. *)
Definition key_value_translatable (value : string) : bool :=
  negb (Str.is_empty value || Str.startswith "C:\" value
        || is_number_or_scientific value || (String.length value <? 2)%nat)
  && negb (bracketed value)
  && (has_letter value && negb (Str.startswith "http" value)).

(** The four rules of the extraction and the rule an item's type comes
    from. *)
Inductive rule : Type := equals_rule | semicolon_rule | colon_rule | free_text_rule.

Definition rule_of (t : item_type) : rule :=
  match t with
  | key_value _ => equals_rule
  | csv_cell _ => semicolon_rule
  | colon_value _ => colon_rule
  | full_line => free_text_rule
  end.

(** The rule of a line as the specification words it: the first
    separator the line holds, looked for in the order [=], [;], [: ]. *)
Definition first_separator (line : string) : rule :=
  if Str.contains "=" line then equals_rule
  else if Str.contains ";" line then semicolon_rule
  else if Str.contains ": " line then colon_rule
  else free_text_rule.

Definition NL : ascii := ascii_of_nat 10.

(** [s[:-1]] *)
Fixpoint init (s : string) : string :=
  match s with
  | EmptyString => EmptyString
  | String c EmptyString => EmptyString
  | String c s' => String c (init s')
  end.

Definition ends_with_newline (s : string) : bool := Str.endswith_char NL s.

(** The line ends with a line feed, and with one only. *)
Definition ends_with_single_newline (s : string) : bool :=
  ends_with_newline s && negb (ends_with_newline (init s)).


(** A service that answers every request with two lines. *)
Definition two_lines (k : nat) (request_text : string) : outcome :=
  Returned ("Hello" ++ LF ++ "World").

(** The blocks the loop of [translate_texts_in_blocks] forms, with
    [current_block] and [current_length] as the loop keeps them and the
    requests left out. *)
Fixpoint blocks_from (max_block_size : nat) (texts current_block : list string)
    (current_length : nat) : list (list string) :=
  match texts with
  | [] => if is_nil current_block then [] else [current_block]
  | text :: texts' =>
      if (max_block_size <? current_length + String.length text)%nat
         && negb (is_nil current_block)
      then current_block
           :: blocks_from max_block_size texts' ([] ++ [text])%list
                (0 + String.length text + 2)
      else blocks_from max_block_size texts' (current_block ++ [text])%list
             (current_length + String.length text + 2)
  end.

Definition blocks_of (max_block_size : nat) (texts : list string)
  : list (list string) :=
  blocks_from max_block_size texts [] 0.

(** Sending blocks one after the other. *)
Fixpoint translate_blocks (backend : nat → string → outcome) (max_retries : nat)
    (blocks : list (list string)) (w : world) : list string * world :=
  match blocks with
  | [] => ([], w)
  | current_block :: blocks' =>
      let '(block_out, w) := translate_block backend max_retries current_block w in
      let '(rest, w) := translate_blocks backend max_retries blocks' w in
      ((block_out ++ rest)%list, w)
  end.

(** The last update of a list that names line [i]. *)
Definition last_update_for (i : nat) (updates : list Update.t)
  : option Update.t :=
  last (List.filter (λ u, (Update.line_num u =? i)%nat) updates).

(** The characters [c] for which [p] holds nowhere in [s]. *)
Definition free_of (p : ascii → bool) (s : string) : bool :=
  negb (Str.existsb p s).

Definition is_dot (c : ascii) : bool := Ascii.eqb c ".".

Definition is_newline (c : ascii) : bool := Ascii.eqb c NL.

(** A service that translates each paragraph of a request by itself,
    with [f], and answers with the translations in their order. *)
Definition paragraph_service (f : string → string) (k : nat)
    (request_text : string) : outcome :=
  Returned (Str.join SEP (List.map f (Str.split SEP request_text))).

(** The order of the items of a file: by line, and on a line by column. *)
Definition comes_before (a b : Item.t) : Prop :=
  Item.line_num a < Item.line_num b
  ∨ (Item.line_num a = Item.line_num b
     ∧ match Item.type a, Item.type b with
       | csv_cell i, csv_cell j => i < j
       | _, _ => False
       end).

(** The items of the file at a path, and the number of items of a list
    of files. *)
Definition items_of (fs : string → option (encoding * list string))
    (file_path : string) : list Item.t :=
  extract_translatable_content file_path (snd <$> fs file_path).

Definition count_items (fs : string → option (encoding * list string))
    (files : list string) : nat :=
  length (concat (List.map (items_of fs) files)).

(** * Properties *)

(** ** Facts on the [str] methods *)

Module StrFacts.
Import Str.

Lemma append_nil_r (s : string) : s ++ "" = s.
Proof. induction s as [|c s IH]; simpl; [done|by rewrite IH]. Qed.

Lemma append_assoc (a b c : string) : (a ++ b) ++ c = a ++ b ++ c.
Proof. induction a as [|x a IH]; simpl; [done|by rewrite IH]. Qed.

Lemma last_char_is_Some (c : ascii) (s : string) :
  ∃ d, last_char (String c s) = Some d.
Proof.
  revert c. induction s as [|e s IH]; intros c; [by exists c|].
  destruct (IH e) as [d Hd]. exists d. by rewrite <- Hd.
Qed.

Lemma last_char_cons (c : ascii) (s : string) :
  last_char (String c s)
  = match last_char s with Some d => Some d | None => Some c end.
Proof.
  destruct s as [|e s]; [done|].
  destruct (last_char_is_Some e s) as [d Hd].
  change (last_char (String c (String e s))) with (last_char (String e s)).
  by rewrite Hd.
Qed.

Lemma last_char_app (a b : string) :
  last_char (a ++ b)
  = match last_char b with Some d => Some d | None => last_char a end.
Proof.
  induction a as [|c a IH].
  - simpl. by destruct (last_char b).
  - change (String c a ++ b) with (String c (a ++ b)).
    rewrite !last_char_cons, IH. by destruct (last_char b), (last_char a).
Qed.

Lemma last_char_None (s : string) : last_char s = None → s = "".
Proof.
  destruct s as [|c s]; [done|]. rewrite last_char_cons.
  by destruct (last_char s).
Qed.

(** What [rstrip] keeps ends with a character that is not stripped. *)
Lemma last_char_rstrip (p : ascii → bool) (s : string) (c : ascii) :
  last_char (rstrip_with p s) = Some c → p c = false.
Proof.
  induction s as [|d s IH]; simpl; [done|].
  destruct (rstrip_with p s) as [|e r] eqn:Hr; simpl.
  - destruct (p d) eqn:Hd; simpl; [done|]. by intros [= <-].
  - apply IH.
Qed.

Lemma last_char_strip (s : string) (c : ascii) :
  last_char (strip s) = Some c → is_space c = false.
Proof. apply last_char_rstrip. Qed.

(** The pieces [split] returns: there is a last one, and it ends as the
    text does, when it is not empty. *)
Lemma split_from_last (sep : string) (s : string) :
  ∀ skip, ∃ l x,
    split_from sep skip s = (l ++ [x])%list
    ∧ (last_char x = None ∨ last_char x = last_char s)
    ∧ (skip = 0 → l = [] → x = s).
Proof.
  induction s as [|c s IH]; intros skip.
  { exists [], "". simpl. auto. }
  assert (Hlast : ∀ x, last_char x = None ∨ last_char x = last_char s →
                       last_char x = None ∨ last_char x = last_char (String c s)).
  { intros x [Hx|Hx]; [by left|]. rewrite last_char_cons.
    destruct (last_char s); [by right|by left]. }
  destruct skip as [|k].
  - cbn [split_from]. destruct (String.prefix sep (String c s)).
    + destruct (IH (String.length sep - 1)) as (l & x & -> & Hx & _).
      exists ("" :: l), x. repeat split; [by apply Hlast|done].
    + destruct (IH 0) as (l & x & -> & Hx & Hwhole).
      destruct l as [|seg l]; simpl.
      * rewrite (Hwhole eq_refl eq_refl). exists [], (String c s). auto.
      * exists (String c seg :: l), x. repeat split; [by apply Hlast|done].
  - cbn [split_from]. destruct (IH k) as (l & x & -> & Hx & _).
    exists l, x. repeat split; [by apply Hlast|done].
Qed.

Lemma join_snoc (sep : string) (l : list string) (x y : string) :
  join sep ((x :: l) ++ [y]) = join sep (x :: l) ++ sep ++ y.
Proof.
  unfold join. revert x. induction l as [|z l IH]; intros x; [done|].
  change (String.concat sep ((x :: z :: l) ++ [y]))
    with (x ++ sep ++ String.concat sep ((z :: l) ++ [y])).
  rewrite IH.
  change (String.concat sep (x :: z :: l))
    with (x ++ sep ++ String.concat sep (z :: l)).
  by rewrite !append_assoc.
Qed.

End StrFacts.

(** ** The padding loop *)

Lemma pad_closed_form (block_translations current_block : list string) :
  pad block_translations current_block
  = (block_translations
       ++ List.skipn (length block_translations) current_block)%list.
Proof.
  funelim (pad block_translations current_block).
  - rewrite H. rewrite length_app. simpl.
    rewrite <- app_assoc. f_equal. simpl.
    rewrite nth_lookup.
    destruct (lookup_lt_is_Some_2 current_block (length block_translations) l)
      as [x Hx].
    rewrite Hx. simpl.
    rewrite (drop_S _ _ _ Hx). do 2 f_equal. lia.
  - rewrite drop_ge by lia. by rewrite app_nil_r.
Qed.

(** The loop stops because its test fails: the answer is then at least as
    long as the block. *)
Lemma pad_length_ge (block_translations current_block : list string) :
  length current_block ≤ length (pad block_translations current_block).
Proof.
  rewrite pad_closed_form, length_app, length_drop. lia.
Qed.

(** ** The batch translator: retries, fallback and the 1:1 contract *)

Section TranslatorProperties.

Variable backend : nat -> string -> outcome.
Variable max_block_size max_retries : nat.

(** What the recursion of [translate_block_with_retry] does from
    [retry_count] on: it sends [n] requests that fail with a network
    error, each followed by its delay, and one last request. *)
Lemma retry_spec (block_text : string) (retry_count : nat) (w : world) :
  ∃ n,
    n ≤ max_retries - retry_count
    ∧ (∀ k, k < n → ∃ e, backend (calls w + k) block_text = Raised e
                          ∧ is_network_error e = true)
    ∧ calls (translate_block_with_retry backend max_retries
               block_text retry_count w).2 = calls w + S n
    ∧ slept (translate_block_with_retry backend max_retries
               block_text retry_count w).2
      = (slept w ++ List.map (λ k, (retry_count + k + 1) * 2) (seq 0 n))%list
    ∧ match backend (calls w + n) block_text with
      | Returned translated =>
          (translate_block_with_retry backend max_retries
             block_text retry_count w).1 = Some translated
      | Raised e =>
          (translate_block_with_retry backend max_retries
             block_text retry_count w).1 = None
          ∧ (is_network_error e = false ∨ n = max_retries - retry_count)
      end.
Proof.
  funelim (translate_block_with_retry backend max_retries
             block_text retry_count w).
  - exists 0. rewrite Nat.add_0_r, Heq. simpl. rewrite app_nil_r.
    repeat split; try lia.
  - exists 0. rewrite Nat.add_0_r, Heq0. simpl. rewrite app_nil_r.
    repeat split; try lia; auto.
  - destruct H as (n & Hn & Hk & Hc & Hs & Hlast). simpl in Hk, Hc, Hs, Hlast.
    exists (S n). repeat split.
    + lia.
    + intros [|k] Hlt.
      * exists e. by rewrite Nat.add_0_r.
      * destruct (Hk k) as (e' & He' & Hnet); [lia|].
        exists e'. by rewrite Nat.add_succ_r.
    + rewrite Hc. lia.
    + rewrite Hs, <- app_assoc. f_equal. simpl. f_equal; [f_equal; lia|].
      rewrite <- seq_shift, map_map. apply map_ext. intros k. lia.
    + rewrite Nat.add_succ_r.
      destruct (backend (S (calls w + n)) block_text); [done|].
      destruct Hlast as [-> Hor]. split; [done|].
      destruct Hor; [by left|right; lia].
  - exists 0. rewrite Nat.add_0_r, Heq1. simpl. rewrite app_nil_r.
    repeat split; try lia; auto.
Qed.

(** A text answered with a result is answered by some request. *)
Lemma retry_some (block_text : string) (w : world) (translated : string) :
  (translate_block_with_retry backend max_retries block_text 0 w).1
  = Some translated →
  ∃ k, backend k block_text = Returned translated.
Proof.
  intros Hsome.
  destruct (retry_spec block_text 0 w) as (n & _ & _ & _ & _ & Hlast).
  exists (calls w + n).
  destruct (backend (calls w + n) block_text) as [s|e].
  - congruence.
  - destruct Hlast as [Hnone _]. congruence.
Qed.

Lemma paired_refl (l : list string) : Forall2 (paired backend) l l.
Proof. apply Forall_Forall2_diag, Forall_forall. intros x _. by left. Qed.

Lemma translate_block_paired (current_block : list string) (w : world) :
  Forall2 (paired backend) current_block
          (translate_block backend max_retries current_block w).1.
Proof.
  unfold translate_block.
  pose proof (retry_some (Str.join SEP current_block) w) as Hsome.
  destruct (translate_block_with_retry backend max_retries
              (Str.join SEP current_block) 0 w) as [[translated|] w'];
    simpl in *; [|apply paired_refl].
  destruct (Str.is_empty translated); simpl; [apply paired_refl|].
  destruct (Hsome translated eq_refl) as [k Hk].
  set (bt := Str.split SEP (Str.strip translated)).
  apply Forall2_same_length_lookup_2.
  - rewrite length_take. pose proof (pad_length_ge bt current_block). lia.
  - intros i text o Htext Ho.
    apply lookup_take_Some in Ho as [Ho Hi].
    rewrite pad_closed_form in Ho.
    apply lookup_app_Some in Ho as [Ho|[Hge Ho]].
    + right. by exists k, current_block, i, translated.
    + left. rewrite lookup_drop in Ho.
      replace (length bt + (i - length bt)) with i in Ho by lia. congruence.
Qed.

(** The loop keeps the texts met so far in two parts: those already
    answered, paired with their answers, and the block being filled. *)
Lemma blocks_loop_paired (texts : list string) :
  ∀ translated_texts current_block current_length w answered,
    Forall2 (paired backend) answered translated_texts →
    ∃ answered',
      Forall2 (paired backend) answered'
        (blocks_loop backend max_block_size max_retries texts
           translated_texts current_block current_length w).1.1
      ∧ (answered'
           ++ (blocks_loop backend max_block_size max_retries texts
                 translated_texts current_block current_length w).1.2)%list
        = (answered ++ current_block ++ texts)%list.
Proof.
  induction texts as [|text texts IH];
    intros translated_texts current_block current_length w answered Hans.
  - exists answered. simpl. by rewrite app_nil_r.
  - simpl.
    destruct ((max_block_size <? current_length + String.length text)%nat
              && negb (is_nil current_block)).
    + pose proof (translate_block_paired current_block w) as Hblock.
      destruct (translate_block backend max_retries current_block w)
        as [block_out w'].
      simpl in Hblock.
      destruct (IH (translated_texts ++ block_out)%list ([] ++ [text])%list
                   (0 + String.length text + 2) w'
                   (answered ++ current_block)%list)
        as (answered' & Hp & Heq); [by apply Forall2_app|].
      exists answered'. split; [done|].
      rewrite Heq. simpl. by rewrite <- app_assoc.
    + destruct (IH translated_texts (current_block ++ [text])%list
                   (current_length + String.length text + 2) w answered Hans)
        as (answered' & Hp & Heq).
      exists answered'. split; [done|].
      rewrite Heq. by rewrite <- (app_assoc current_block).
Qed.

(** C1. For every list of texts and every behaviour of the translation
    service (answers, failures on any requests, answers that split into
    fewer or more segments than the block has texts),
    [translate_texts_in_blocks] returns exactly as many texts as it was
    given, and the text at each position is the input text of that
    position or the segment this text's place in its block selects in an
    answer of the service to that block. *)
Theorem translate_texts_in_blocks_one_to_one (texts : list string) (w : world) :
  let out :=
    (translate_texts_in_blocks backend max_block_size max_retries texts w).1 in
  length out = length texts ∧ Forall2 (paired backend) texts out.
Proof.
  cut (Forall2 (paired backend) texts
         (translate_texts_in_blocks backend max_block_size max_retries
            texts w).1).
  { intros H. split; [symmetry; by eapply Forall2_length|done]. }
  unfold translate_texts_in_blocks.
  destruct (blocks_loop_paired texts [] [] 0 w [] (Forall2_nil_2 _ _ (paired backend)))
    as (answered & Hp & Heq).
  destruct (blocks_loop backend max_block_size max_retries texts [] [] 0 w)
    as [[translated_texts current_block] w'].
  simpl in Hp, Heq. subst texts.
  destruct current_block as [|text block]; simpl.
  - by rewrite app_nil_r.
  - pose proof (translate_block_paired (text :: block) w') as Hblock.
    destruct (translate_block backend max_retries (text :: block) w')
      as [block_out w''].
    simpl in *. by apply Forall2_app.
Qed.

(** C4. Sending one block: the request is repeated, with the same text,
    after each failure whose description holds a network keyword, at most
    [max_retries] times (3 by default), the k-th repetition after a delay
    of 2k seconds; when the last request sent fails, either its failure
    holds no network keyword or the [max_retries] repetitions are used
    up, and the block's own texts are returned for it. *)
Theorem translate_block_retry_then_fallback
    (current_block : list string) (w : world) :
  let block_text := Str.join SEP current_block in
  let result := translate_block backend max_retries current_block w in
  ∃ retries,
    retries ≤ max_retries
    ∧ (∀ k, k < retries →
         ∃ e, backend (calls w + k) block_text = Raised e
              ∧ is_network_error e = true)
    ∧ calls result.2 = calls w + S retries
    ∧ slept result.2
      = (slept w ++ List.map (λ k, (k + 1) * 2) (seq 0 retries))%list
    ∧ ∀ e, backend (calls w + retries) block_text = Raised e →
           (is_network_error e = false ∨ retries = max_retries)
           ∧ result.1 = current_block.
Proof.
  intros block_text result. subst result. unfold translate_block.
  fold block_text.
  destruct (retry_spec block_text 0 w) as (n & Hn & Hk & Hc & Hs & Hlast).
  exists n.
  destruct (translate_block_with_retry backend max_retries block_text 0 w)
    as [translated_block w'].
  simpl in Hc, Hs, Hlast.
  repeat split.
  - lia.
  - done.
  - destruct translated_block as [t|]; [destruct (Str.is_empty t)|]; simpl; lia.
  - destruct translated_block as [t|]; [destruct (Str.is_empty t)|]; simpl;
      rewrite Hs; f_equal.
  - rewrite H in Hlast. destruct Hlast as [_ [Hnet|Hmax]]; [by left|right; lia].
  - rewrite H in Hlast. destruct Hlast as [-> _]. done.
Qed.

End TranslatorProperties.

(** Two timeouts, then an answer: the block is translated, after delays
    of 2 and 4 seconds. *)
Example two_timeouts_then_answer :
  translate_texts_in_blocks flaky default_max_block_size default_max_retries
    ["open"; "close"] (World 0 [])
  = (["OPEN"; "CLOSE"], World 3 [2; 4]).
Proof. vm_compute. reflexivity. Qed.

(** A service that is never reached: four requests, delays of 2, 4 and 6
    seconds, and the texts come back as they are. *)
Example retries_used_up :
  translate_texts_in_blocks unreachable default_max_block_size
    default_max_retries ["open"; "close"] (World 0 [])
  = (["open"; "close"], World 4 [2; 4; 6]).
Proof. vm_compute. reflexivity. Qed.

(** A failure that is not a network failure: one request, no delay. *)
Example no_retry_without_network_keyword :
  translate_texts_in_blocks refusing default_max_block_size
    default_max_retries ["open"; "close"] (World 0 [])
  = (["open"; "close"], World 1 []).
Proof. vm_compute. reflexivity. Qed.

(** ** The rewriter *)

Lemma apply_update_length (content : list string) (update : Update.t) :
  length (apply_update content update) = length content.
Proof.
  unfold apply_update. case_match; [apply length_insert|done].
Qed.

Lemma apply_updates_length (updates : list Update.t) :
  ∀ content, length (apply_updates content updates) = length content.
Proof.
  unfold apply_updates.
  induction updates as [|u us IH]; intros content; simpl; [done|].
  rewrite IH. apply apply_update_length.
Qed.

Lemma apply_updates_app (content : list string) (us1 us2 : list Update.t) :
  apply_updates content (us1 ++ us2)
  = apply_updates (apply_updates content us1) us2.
Proof. apply fold_left_app. Qed.

Lemma apply_update_out_of_range (content : list string) (update : Update.t) :
  length content ≤ Update.line_num update →
  apply_update content update = content.
Proof.
  intros Hge. unfold apply_update.
  destruct (Nat.ltb_spec (Update.line_num update) (length content)); [lia|done].
Qed.

(** C10. An update whose [line_num] is not below the number of lines is
    passed over: the file is written all the same, with the lines the
    other updates of the list give. *)
Theorem out_of_range_update_skipped (file_path : string)
    (used_encoding : encoding) (lines : list string)
    (before : list Update.t) (update : Update.t) (after : list Update.t) :
  length lines ≤ Update.line_num update →
  update_file_with_translations file_path (Some (used_encoding, lines))
    (before ++ update :: after)
  = Some (Written (output_file file_path) utf_8
            (apply_updates lines (before ++ after))).
Proof.
  intros Hge. simpl. do 2 f_equal.
  rewrite !apply_updates_app. simpl. f_equal.
  apply apply_update_out_of_range. by rewrite apply_updates_length.
Qed.

Lemma out_of_range_update_skipped_witness :
  length ["k=v" ++ LF; "plain"] ≤ 2
  ∧ update_file_with_translations "a.txt"
      (Some (latin_1, ["k=v" ++ LF; "plain"]))
      ([Update.mk 1 "plain" "PLAIN" "plain" full_line]
         ++ Update.mk 2 "x" "X" "x" full_line
         :: [Update.mk 0 "v" "V" ("k=v" ++ LF) (key_value "k")])
    = Some (Written "a_translated.txt" utf_8 ["k=V" ++ LF; "PLAIN" ++ LF]).
Proof.
  split; [simpl; lia|].
  apply (out_of_range_update_skipped "a.txt" latin_1 ["k=v" ++ LF; "plain"]
           [Update.mk 1 "plain" "PLAIN" "plain" full_line]
           (Update.mk 2 "x" "X" "x" full_line)
           [Update.mk 0 "v" "V" ("k=v" ++ LF) (key_value "k")]).
  simpl. lia.
Defined.

(** A later update of a line replaces what an earlier update of the same
    line wrote. *)
Lemma later_update_wins (content : list string) (u1 u2 : Update.t) :
  Update.line_num u1 = Update.line_num u2 →
  apply_updates content [u1; u2] = apply_updates content [u2].
Proof.
  intros Heq. unfold apply_updates, apply_update. simpl. rewrite Heq.
  destruct (Update.line_num u2 <? length content)%nat eqn:Hlt.
  - rewrite length_insert, Hlt. apply list_insert_insert_eq.
  - by rewrite Hlt.
Qed.

(** C3. A line with two translatable cells: both are extracted and both
    are translated, and the line written carries the second translation
    only, the first cell is back to its original text. *)
Theorem same_line_cells_first_translation_lost :
  process_file shouting "data.txt" (Some (utf_8, ["Alpha;Beta" ++ LF]))
  = Some (Written "data_translated.txt" utf_8 ["Alpha;BETA" ++ LF]).
Proof. vm_compute. reflexivity. Qed.

(** C9. A name that holds [.dat] before its extension too gets the
    marker at both places. *)
Theorem output_file_marks_every_occurrence :
  output_file "report.data.dat" = "report_translated.data_translated.dat".
Proof. vm_compute. reflexivity. Qed.

(** ** Line endings of the rewritten lines *)

Section LineEndings.
Import Str StrFacts.

Lemma init_snoc (body : string) (c : ascii) :
  init (body ++ String c "") = body.
Proof.
  induction body as [|d body IH]; [done|].
  change (String d body ++ String c "") with (String d (body ++ String c "")).
  destruct (body ++ String c "") as [|e r] eqn:Hr.
  - by destruct body.
  - change (init (String d (String e r)))
      with (String d (init (String e r))).
    by rewrite IH.
Qed.

Lemma single_newline_snoc (body : string) :
  ends_with_single_newline (body ++ LF) = negb (ends_with_newline body).
Proof.
  unfold ends_with_single_newline, ends_with_newline, endswith_char, LF.
  by rewrite init_snoc, last_char_app.
Qed.

Lemma ends_with_newline_app (a b : string) :
  ends_with_newline (a ++ b)
  = if is_empty b then ends_with_newline a else ends_with_newline b.
Proof.
  unfold ends_with_newline, endswith_char. rewrite last_char_app.
  destruct b as [|c b]; [done|].
  by destruct (last_char_is_Some c b) as [d ->].
Qed.

(** The last field of a stripped line does not end with a line feed. *)
Lemma split_strip_last (sep line : string) :
  ∃ l x, split sep (strip line) = (l ++ [x])%list
         ∧ ends_with_newline x = false.
Proof.
  destruct (split_from_last sep (strip line) 0) as (l & x & Heq & Hx & _).
  exists l, x. split; [done|].
  unfold ends_with_newline, endswith_char.
  destruct (last_char x) as [c|] eqn:Hc; [|done].
  destruct Hx as [Hx|Hx]; [done|].
  symmetry in Hx. apply last_char_strip in Hx.
  destruct (Ascii.eqb_spec c NL) as [->|]; [|done].
  by vm_compute in Hx.
Qed.

Lemma ends_with_newline_cons (c : ascii) (s : string) :
  Ascii.eqb c NL = false →
  ends_with_newline s = false →
  ends_with_newline (String c s) = false.
Proof.
  unfold ends_with_newline, endswith_char. rewrite last_char_cons.
  by destruct (last_char s).
Qed.

Lemma join_last_no_newline (l : list string) (y : string) :
  ends_with_newline y = false →
  ends_with_newline (join ";" (l ++ [y])) = false.
Proof.
  intros Hy. destruct l as [|x l]; [done|].
  rewrite join_snoc, ends_with_newline_app. simpl.
  by apply ends_with_newline_cons.
Qed.

Lemma new_line_single_newline (update : Update.t) :
  ends_with_newline (Update.translated_value update) = false →
  ends_with_single_newline (new_line update) = true.
Proof.
  intros Htv. unfold new_line.
  destruct (Update.type update) as [key|key|col_index|].
  - rewrite <- !append_assoc, single_newline_snoc, append_assoc.
    rewrite ends_with_newline_app. simpl.
    by rewrite ends_with_newline_cons.
  - rewrite <- !append_assoc, single_newline_snoc, append_assoc.
    rewrite ends_with_newline_app. simpl.
    rewrite ends_with_newline_cons; [done|done|].
    by apply ends_with_newline_cons.
  - rewrite single_newline_snoc.
    destruct (split_strip_last ";" (Update.original_line update))
      as (l & x & -> & Hx).
    rewrite length_app. simpl.
    destruct (Nat.ltb_spec col_index (length l + 1)) as [Hlt|Hge].
    + destruct (decide (col_index < length l)) as [Hl|Hl].
      * rewrite insert_app_l by done. by rewrite join_last_no_newline.
      * replace col_index with (length l + 0) by lia.
        rewrite insert_app_r. simpl. by rewrite join_last_no_newline.
    + by rewrite join_last_no_newline.
  - by rewrite single_newline_snoc, Htv.
Qed.

End LineEndings.

(** ** Lines left alone and lines rewritten *)

Lemma apply_updates_frame (updates : list Update.t) :
  ∀ (content : list string) (i : nat),
    (∀ u, u ∈ updates → Update.line_num u ≠ i) →
    apply_updates content updates !! i = content !! i.
Proof.
  unfold apply_updates.
  induction updates as [|u us IH]; intros content i Hi; simpl; [done|].
  rewrite IH by (intros u' Hu'; apply Hi; by right).
  unfold apply_update. case_match; [|done].
  apply list_lookup_insert_ne, Hi. by left.
Qed.

Lemma apply_updates_endings (updates : list Update.t) (content : list string) :
  Forall (λ u, ends_with_newline (Update.translated_value u) = false) updates →
  ∀ u, u ∈ updates → Update.line_num u < length content →
    ∃ line, apply_updates content updates !! Update.line_num u = Some line
            ∧ ends_with_single_newline line = true.
Proof.
  induction updates as [|u0 us IH] using rev_ind; intros Hall u Hu Hlt.
  { by apply elem_of_nil in Hu. }
  apply Forall_app in Hall as [Hus Hu0]. rewrite Forall_singleton in Hu0.
  rewrite apply_updates_app. simpl. unfold apply_update.
  rewrite apply_updates_length.
  destruct (decide (Update.line_num u0 = Update.line_num u)) as [Heq|Hne].
  - rewrite Heq. destruct (Nat.ltb_spec (Update.line_num u) (length content));
      [|lia].
    exists (new_line u0). split.
    + apply list_lookup_insert_eq. by rewrite apply_updates_length.
    + by apply new_line_single_newline.
  - assert (Hin : u ∈ us).
    { apply elem_of_app in Hu as [Hu|Hu]; [done|].
      apply list_elem_of_singleton in Hu. congruence. }
    destruct (IH Hus u Hin Hlt) as (line & Hline & Hone).
    exists line. split; [|done].
    case_match; [|done]. by rewrite list_lookup_insert_ne.
Qed.

(** The rewriter called with a translated value that ends with a line
    feed: the line written ends with two. *)
Lemma translated_newline_doubles_the_ending :
  apply_updates ["old" ++ LF]
    [Update.mk 0 "old" ("Hi" ++ LF) ("old" ++ LF) full_line]
  = ["Hi" ++ LF ++ LF]
  ∧ ends_with_single_newline ("Hi" ++ LF ++ LF) = false.
Proof. split; vm_compute; reflexivity. Qed.


(** ** The extraction pass *)

Section Extraction.
Import Str.

Lemma partition_contains (sep s : string) :
  contains sep s = true → ∃ before after, partition sep s = Some (before, after).
Proof.
  induction s as [|c s IH]; cbn [contains partition].
  - destruct sep; simpl; intros; [eauto|discriminate].
  - destruct (String.prefix sep (String c s)); [eauto|].
    rewrite orb_false_l.
    intros Hs. destruct (IH Hs) as (before & after & ->). eauto.
Qed.

(** Under the test [sep in line], [line.split(sep, 1)] has two pieces:
    the unpacking into [key, value] does not fail. *)
Lemma split_once_contains (sep s : string) :
  contains sep s = true → ∃ key value, split_once sep s = [key; value].
Proof.
  intros Hs. unfold split_once.
  destruct (partition_contains sep s Hs) as (before & after & ->). eauto.
Qed.

Lemma prefix_equals_cons (c : ascii) (s : string) :
  String.prefix "=" (String c s) = Ascii.eqb c "=".
Proof.
  cbn [String.prefix]. destruct (ascii_dec "=" c) as [<-|Hne].
  - by destruct s.
  - symmetry. apply Ascii.eqb_neq. congruence.
Qed.

Lemma contains_equals_app (key value : string) :
  contains "=" (key ++ "=" ++ value) = true.
Proof.
  induction key as [|c key IH].
  - simpl. by destruct value.
  - change (String c key ++ "=" ++ value)
      with (String c (key ++ "=" ++ value)).
    cbn [contains]. rewrite IH. apply orb_true_r.
Qed.

(** The first [=] of a line is the one after a key that holds none. *)
Lemma partition_equals_app (key value : string) :
  contains "=" key = false →
  partition "=" (key ++ "=" ++ value) = Some (key, value).
Proof.
  induction key as [|c key IH]; intros Hkey.
  - simpl. by destruct value.
  - change (String c key ++ "=" ++ value)
      with (String c (key ++ "=" ++ value)).
    cbn [contains] in Hkey. apply orb_false_elim in Hkey as [Hc Hkey].
    rewrite prefix_equals_cons in Hc.
    cbn [partition]. rewrite prefix_equals_cons, Hc, (IH Hkey). done.
Qed.

Lemma Forall_concat_imap {A B : Type} (P : B → Prop) (l : list A) :
  ∀ f : nat → A → list B,
    (∀ i x, Forall P (f i x)) → Forall P (concat (imap f l)).
Proof.
  induction l as [|x l IH]; intros f Hf; simpl; [done|].
  apply Forall_app. split; [apply Hf|]. apply IH. intros i y. apply Hf.
Qed.

(** C7. The items of a line all come from one rule, the rule of the
    first separator the stripped line holds, in the order [=], [;],
    [: ], and free text when it holds none: with [=] in the line no
    [csv_cell] is emitted, whatever else the line holds, and so on. *)
Theorem extract_line_single_rule
    (file_path : string) (line_num : nat) (original_line : string) :
  Forall (λ item, rule_of (Item.type item)
                  = first_separator (strip original_line))
         (extract_line file_path line_num original_line).
Proof.
  unfold extract_line, first_separator.
  destruct (is_empty _ || _ || _ || _); [done|].
  destruct (contains "=" (strip original_line)).
  { repeat case_match; by repeat constructor. }
  destruct (contains ";" (strip original_line)).
  { apply Forall_concat_imap. intros i x. unfold extract_cell.
    repeat case_match; by repeat constructor. }
  destruct (contains ": " (strip original_line));
    repeat case_match; by repeat constructor.
Qed.

(** C6, as the code has it.  A line that is not passed over, of the form
    key=value with no [=] in the key and a value that goes through the
    tests, gives exactly one item, of type [key_value]; its key is the
    text before the first [=] with the white space at both ends off, its
    value the text after it with the white space at both ends off. *)
Theorem key_value_line_one_item
    (file_path : string) (line_num : nat) (original_line key value : string) :
  strip original_line = key ++ "=" ++ value →
  contains "=" key = false →
  skipped (strip original_line) = false →
  key_value_translatable (strip value) = true →
  extract_line file_path line_num original_line
  = [Item.mk file_path line_num (strip value) original_line
             (key_value (strip key))].
Proof.
  intros Hline Hkey Hskip Hvalue. unfold extract_line.
  unfold skipped in Hskip. rewrite Hskip.
  rewrite Hline, contains_equals_app.
  unfold split_once. rewrite (partition_equals_app key value Hkey).
  unfold key_value_translatable in Hvalue.
  apply andb_true_iff in Hvalue as [Hvalue Hletter].
  apply andb_true_iff in Hvalue as [Hchecks Hbracket].
  apply negb_true_iff in Hchecks, Hbracket.
  by rewrite Hchecks, Hbracket, Hletter.
Qed.

End Extraction.

Lemma key_value_line_one_item_witness :
  extract_line "ui.dat" 4 ("  title = Main menu " ++ LF)
  = [Item.mk "ui.dat" 4 "Main menu" ("  title = Main menu " ++ LF)
             (key_value "title")].
Proof.
  apply (key_value_line_one_item "ui.dat" 4 ("  title = Main menu " ++ LF)
           "title " " Main menu"); vm_compute; reflexivity.
Defined.

(** C6 as stated fails: with white space before the [=], the key of the
    item is not the text before the first [=]. *)
Lemma key_is_stripped :
  Str.partition "=" (Str.strip "name = Hello World")
  = Some ("name ", " Hello World")
  ∧ extract_line "ui.dat" 0 "name = Hello World"
    = [Item.mk "ui.dat" 0 "Hello World" "name = Hello World"
               (key_value "name")].
Proof. split; vm_compute; reflexivity. Qed.

(** C8 as stated fails: the line gives an item. *)
Lemma drive_path_key_is_extracted :
  extract_line "paths.dat" 0 "C:\path\to\file=something" <> [].
Proof. vm_compute. discriminate. Qed.

(** C8, as the code has it.  The line [C:\path\to\file=something] gives
    one [key_value] item, with the path as its key and [something] as its
    value; the drive-path test reads the value after the first [=], and a
    line whose value starts with [C:\] gives no item. *)
Theorem drive_path_rule_reads_the_value (file_path : string) (line_num : nat) :
  extract_line file_path line_num "C:\path\to\file=something"
  = [Item.mk file_path line_num "something" "C:\path\to\file=something"
             (key_value "C:\path\to\file")]
  ∧ ∀ original_line key value,
      Str.strip original_line = key ++ "=" ++ value →
      Str.contains "=" key = false →
      Str.startswith "C:\" (Str.strip value) = true →
      extract_line file_path line_num original_line = [].
Proof.
  split; [vm_compute; reflexivity|].
  intros original_line key value Hline Hkey Hstart. unfold extract_line.
  destruct (Str.is_empty _ || _ || _ || _); [done|].
  rewrite Hline, contains_equals_app.
  unfold Str.split_once. rewrite (partition_equals_app key value Hkey).
  rewrite Hstart. by rewrite orb_true_r.
Qed.

Lemma drive_path_rule_reads_the_value_witness :
  extract_line "paths.dat" 3 ("save = C:\games\slot1.sav" ++ LF) = [].
Proof.
  apply (proj2 (drive_path_rule_reads_the_value "paths.dat" 3)
           ("save = C:\games\slot1.sav" ++ LF) "save " " C:\games\slot1.sav");
    vm_compute; reflexivity.
Defined.

(** ** The numeric classifier *)

(** Any text that ends with [e] or [E] once stripped is taken for a
    number: the test [text.upper().endswith('E')] does not look at what
    stands before the letter. *)
Lemma ends_in_E_is_numeric (text : string) :
  Str.endswith_char "E" (Str.upper (Str.strip text)) = true →
  is_number_or_scientific text = true.
Proof.
  intros HE. unfold is_number_or_scientific. rewrite HE. simpl.
  by repeat case_match.
Qed.

(** C2. A word of letters that ends with [e] is classified as numeric. *)
Theorem word_ending_in_e_is_numeric :
  is_number_or_scientific "Temperature" = true
  ∧ has_letter "Temperature" = true.
Proof. split; vm_compute; reflexivity. Qed.

(** The semicolon line of the specification's second example gives no
    item: [Temperature] is dropped with the numbers. *)
Example temperature_cell_is_dropped :
  extract_line "table.dat" 0 "A;12.5;Temperature;N" = [].
Proof. vm_compute. reflexivity. Qed.

(** The words [float] reads as numbers are numeric too. *)
Example float_words_are_numeric :
  List.map is_number_or_scientific ["nan"; "inf"; "-Infinity"; "1_000"]
  = [true; true; true; true].
Proof. vm_compute. reflexivity. Qed.

(** ** Which update a rewritten line comes from *)

Lemma last_update_for_snoc (i : nat) (us : list Update.t) (u : Update.t) :
  last_update_for i (us ++ [u])
  = if (Update.line_num u =? i)%nat then Some u else last_update_for i us.
Proof.
  unfold last_update_for. rewrite List.filter_app. simpl.
  destruct (Update.line_num u =? i)%nat.
  - by rewrite last_snoc.
  - by rewrite app_nil_r.
Qed.

Lemma apply_updates_lookup (updates : list Update.t) (content : list string)
    (i : nat) :
  i < length content →
  apply_updates content updates !! i
  = match last_update_for i updates with
    | Some u => Some (new_line u)
    | None => content !! i
    end.
Proof.
  intros Hi. induction updates as [|u us IH] using rev_ind; [done|].
  rewrite apply_updates_app, last_update_for_snoc. simpl. unfold apply_update.
  rewrite apply_updates_length.
  destruct (Nat.eqb_spec (Update.line_num u) i) as [->|Hne].
  - destruct (Nat.ltb_spec i (length content)); [|lia].
    apply list_lookup_insert_eq. by rewrite apply_updates_length.
  - rewrite <- IH.
    destruct (Update.line_num u <? length content)%nat; [|done].
    by apply list_lookup_insert_ne.
Qed.

(** X1. Each line of the rewritten content is the line written by the
    last update of the list that names it, whatever the earlier updates
    of that line were, and the line as it was read when no update names
    it; no line is added. *)
Theorem rewritten_line_comes_from_last_update
    (content : list string) (updates : list Update.t) (i : nat) :
  apply_updates content updates !! i
  = match content !! i with
    | Some line =>
        Some (match last_update_for i updates with
              | Some u => new_line u
              | None => line
              end)
    | None => None
    end.
Proof.
  destruct (content !! i) as [line|] eqn:Hline.
  - rewrite apply_updates_lookup by (by eapply lookup_lt_Some).
    by destruct (last_update_for i updates).
  - apply lookup_ge_None. rewrite apply_updates_length.
    by apply lookup_ge_None.
Qed.

Lemma apply_update_commute (content : list string) (u1 u2 : Update.t) :
  Update.line_num u1 ≠ Update.line_num u2 →
  apply_update (apply_update content u1) u2
  = apply_update (apply_update content u2) u1.
Proof.
  intros Hne. unfold apply_update.
  destruct (Update.line_num u1 <? length content)%nat eqn:H1,
           (Update.line_num u2 <? length content)%nat eqn:H2;
    rewrite ?length_insert, ?H1, ?H2; try done.
  symmetry. by apply list_insert_insert_ne.
Qed.

Lemma apply_updates_permutation (us us' : list Update.t) :
  us ≡ₚ us' →
  NoDup (Update.line_num <$> us) →
  ∀ content, apply_updates content us = apply_updates content us'.
Proof.
  unfold apply_updates.
  induction 1 as [|u us us' Hperm IH|u1 u2 us|us us' us'' H1 IH1 H2 IH2];
    intros Hnd content; simpl.
  - done.
  - apply IH. by apply NoDup_cons in Hnd as [_ Hnd].
  - f_equal. apply apply_update_commute.
    apply NoDup_cons in Hnd as [Hnotin _]. intros Heq. apply Hnotin.
    rewrite Heq. left.
  - rewrite IH1 by done. apply IH2. by rewrite <- H1.
Qed.

(** X2. When no two updates of a list name the same line, the order of
    the updates does not matter: any rearrangement of the list gives the
    same file. *)
Theorem updates_of_distinct_lines_commute (file_path : string)
    (content : option (encoding * list string)) (us us' : list Update.t) :
  NoDup (Update.line_num <$> us) →
  us ≡ₚ us' →
  update_file_with_translations file_path content us
  = update_file_with_translations file_path content us'.
Proof.
  intros Hnd Hperm. destruct content as [[used_encoding lines]|]; [|done].
  simpl. do 2 f_equal. by apply apply_updates_permutation.
Qed.

Lemma updates_of_distinct_lines_commute_witness :
  update_file_with_translations "a.txt" (Some (utf_8, ["x" ++ LF; "k=v" ++ LF]))
    [Update.mk 0 "x" "X" ("x" ++ LF) full_line;
     Update.mk 1 "v" "V" ("k=v" ++ LF) (key_value "k")]
  = update_file_with_translations "a.txt" (Some (utf_8, ["x" ++ LF; "k=v" ++ LF]))
      [Update.mk 1 "v" "V" ("k=v" ++ LF) (key_value "k");
       Update.mk 0 "x" "X" ("x" ++ LF) full_line].
Proof.
  apply updates_of_distinct_lines_commute.
  - compute_done.
  - apply perm_swap.
Defined.

(** ** The blocks the translator sends *)

Lemma length_append (a b : string) :
  String.length (a ++ b) = String.length a + String.length b.
Proof. induction a as [|c a IH]; simpl; [done|by rewrite IH]. Qed.

(** The sum the loop keeps in [current_length]. *)
Lemma current_length_join (block : list string) (text : string) :
  String.length (Str.join SEP (block ++ [text]))
  = fold_right (λ x n, String.length x + 2 + n) 0 block + String.length text.
Proof.
  induction block as [|x block IH]; [simpl; lia|].
  destruct block as [|y block]; [simpl; rewrite !length_append; simpl; lia|].
  change (Str.join SEP ((x :: y :: block) ++ [text]))
    with (x ++ SEP ++ Str.join SEP ((y :: block) ++ [text])).
  rewrite !length_append, IH. simpl. lia.
Qed.

Lemma blocks_from_concat (max_block_size : nat) (texts : list string) :
  ∀ current_block current_length,
    concat (blocks_from max_block_size texts current_block current_length)
    = (current_block ++ texts)%list.
Proof.
  induction texts as [|text texts IH]; intros current_block current_length;
    simpl.
  - destruct current_block; simpl; by rewrite ?app_nil_r.
  - case_match; simpl; rewrite IH; [done|]. by rewrite <- app_assoc.
Qed.

Lemma blocks_of_concat (max_block_size : nat) (texts : list string) :
  concat (blocks_of max_block_size texts) = texts.
Proof. apply blocks_from_concat. Qed.

Lemma blocks_from_not_empty (max_block_size : nat) (texts : list string) :
  ∀ current_block current_length,
    Forall (λ block, block ≠ [])
           (blocks_from max_block_size texts current_block current_length).
Proof.
  induction texts as [|text texts IH]; intros current_block current_length;
    simpl.
  - destruct current_block; simpl; by repeat constructor.
  - destruct (_ <? _)%nat; simpl; [|apply IH].
    destruct current_block; simpl; [apply IH|]. constructor; [done|apply IH].
Qed.

Lemma blocks_from_fit (max_block_size : nat) (texts : list string) :
  ∀ current_block current_length,
    current_length
    = fold_right (λ x n, String.length x + 2 + n) 0 current_block →
    length current_block ≤ 1
    ∨ String.length (Str.join SEP current_block) ≤ max_block_size →
    Forall (λ block, length block = 1
                     ∨ String.length (Str.join SEP block) ≤ max_block_size)
           (blocks_from max_block_size texts current_block current_length).
Proof.
  induction texts as [|text texts IH];
    intros current_block current_length Hlen Hfit; simpl.
  - destruct current_block as [|x [|y block]]; simpl.
    + constructor.
    + constructor; [by left|constructor].
    + constructor; [|constructor].
      destruct Hfit as [Hfit|Hfit]; [simpl in Hfit; lia|by right].
  - destruct (Nat.ltb_spec max_block_size (current_length + String.length text))
      as [Hover|Hin]; simpl.
    + destruct current_block as [|x block]; simpl.
      * apply IH; [simpl in *; lia|left; simpl; lia].
      * constructor.
        -- destruct block; [by left|].
           destruct Hfit as [Hfit|Hfit]; [simpl in Hfit; lia|by right].
        -- apply IH; [simpl; lia|left; simpl; lia].
    + apply IH.
      * rewrite Hlen. clear. induction current_block; simpl; lia.
      * destruct current_block as [|x block]; [left; simpl; lia|].
        right. rewrite current_length_join. lia.
Qed.

Lemma blocks_from_count (max_block_size : nat) (texts : list string) :
  ∀ current_block current_length,
    length (blocks_from max_block_size texts current_block current_length)
    ≤ length (current_block ++ texts)%list.
Proof.
  intros current_block current_length.
  rewrite <- (blocks_from_concat max_block_size texts current_block
                current_length).
  pose proof (blocks_from_not_empty max_block_size texts current_block
                current_length) as Hne.
  induction Hne as [|block blocks Hblock _ IH]; simpl; [lia|].
  rewrite length_app. destruct block; [done|simpl; lia].
Qed.

Section Blocks.

Variable backend : nat → string → outcome.
Variable max_block_size max_retries : nat.

Lemma blocks_loop_blocks (texts : list string) :
  ∀ translated_texts current_block current_length w,
    (let '(translated_texts, current_block, w) :=
       blocks_loop backend max_block_size max_retries texts translated_texts
         current_block current_length w in
     if negb (is_nil current_block)
     then
       let '(block_out, w) :=
         translate_block backend max_retries current_block w in
       ((translated_texts ++ block_out)%list, w)
     else (translated_texts, w))
    = (let '(rest, w) :=
         translate_blocks backend max_retries
           (blocks_from max_block_size texts current_block current_length) w in
       ((translated_texts ++ rest)%list, w)).
Proof.
  induction texts as [|text texts IH];
    intros translated_texts current_block current_length w.
  - simpl. destruct current_block as [|x block]; simpl.
    + by rewrite app_nil_r.
    + destruct (translate_block backend max_retries (x :: block) w).
      by rewrite app_nil_r.
  - cbn [blocks_loop blocks_from].
    destruct ((max_block_size <? current_length + String.length text)%nat
              && negb (is_nil current_block)).
    + cbn [translate_blocks].
      destruct (translate_block backend max_retries current_block w)
        as [block_out w1].
      rewrite IH.
      destruct (translate_blocks backend max_retries _ w1) as [rest w2].
      by rewrite app_assoc.
    + apply IH.
Qed.

Lemma translate_texts_in_blocks_blocks (texts : list string) (w : world) :
  translate_texts_in_blocks backend max_block_size max_retries texts w
  = translate_blocks backend max_retries (blocks_of max_block_size texts) w.
Proof.
  unfold translate_texts_in_blocks, blocks_of.
  pose proof (blocks_loop_blocks texts [] [] 0 w) as H.
  destruct (blocks_loop backend max_block_size max_retries texts [] [] 0 w)
    as [[translated_texts current_block] w1].
  rewrite H. by destruct (translate_blocks backend max_retries _ w).
Qed.

(** X3. The translator cuts the texts into consecutive blocks, none of
    them empty, that give the texts back when put end to end, and its
    result is what sending these blocks one after the other gives. *)
Theorem translate_texts_in_blocks_by_blocks (texts : list string) (w : world) :
  translate_texts_in_blocks backend max_block_size max_retries texts w
  = translate_blocks backend max_retries (blocks_of max_block_size texts) w
  ∧ concat (blocks_of max_block_size texts) = texts
  ∧ Forall (λ block, block ≠ []) (blocks_of max_block_size texts).
Proof.
  split; [apply translate_texts_in_blocks_blocks|]. split.
  - apply blocks_of_concat.
  - apply blocks_from_not_empty.
Qed.

End Blocks.

(** X4. The text of a request holds one text only, or it is not longer
    than [max_block_size]: a block of several texts, joined by the
    separator, stays within the limit. *)
Theorem block_within_limit_or_single (max_block_size : nat)
    (texts : list string) :
  Forall (λ block, length block = 1
                   ∨ String.length (Str.join SEP block) ≤ max_block_size)
         (blocks_of max_block_size texts).
Proof. apply blocks_from_fit; [done|left; simpl; lia]. Qed.

(** ** Requests and delays of a whole run of the translator *)

Section Effects.

Variable backend : nat → string → outcome.
Variable max_block_size max_retries : nat.

Lemma translate_block_effects (current_block : list string) (w : world) :
  ∃ delays,
    slept (translate_block backend max_retries current_block w).2
    = (slept w ++ delays)%list
    ∧ calls (translate_block backend max_retries current_block w).2
      = calls w + 1 + length delays
    ∧ length delays ≤ max_retries
    ∧ Forall (λ d, 2 ≤ d ≤ 2 * max_retries) delays.
Proof.
  unfold translate_block.
  destruct (retry_spec backend max_retries (Str.join SEP current_block) 0 w)
    as (n & Hn & _ & Hc & Hs & _).
  destruct (translate_block_with_retry backend max_retries
              (Str.join SEP current_block) 0 w) as [translated_block w1].
  simpl in Hc, Hs.
  exists (List.map (λ k, (0 + k + 1) * 2) (seq 0 n)).
  rewrite length_map, length_seq.
  assert (Hd : Forall (λ d, 2 ≤ d ≤ 2 * max_retries)
                      (List.map (λ k, (0 + k + 1) * 2) (seq 0 n))).
  { apply Forall_forall. intros d Hd.
    apply list_elem_of_In, in_map_iff in Hd as (k & <- & Hk).
    apply in_seq in Hk. lia. }
  destruct translated_block as [t|]; [destruct (Str.is_empty t)|]; simpl;
    (repeat split; [done|lia|lia|done]).
Qed.


Lemma translate_blocks_effects (blocks : list (list string)) :
  ∀ w, ∃ delays,
    slept (translate_blocks backend max_retries blocks w).2
    = (slept w ++ delays)%list
    ∧ calls (translate_blocks backend max_retries blocks w).2
      = calls w + length blocks + length delays
    ∧ length delays ≤ length blocks * max_retries
    ∧ Forall (λ d, 2 ≤ d ≤ 2 * max_retries) delays.
Proof.
  induction blocks as [|block blocks IH]; intros w.
  - exists []. simpl. rewrite app_nil_r. repeat split; [lia|lia|constructor].
  - cbn [translate_blocks].
    destruct (translate_block_effects block w) as (d1 & Hs1 & Hc1 & Hl1 & Hd1).
    destruct (translate_block backend max_retries block w) as [block_out w1].
    destruct (IH w1) as (d2 & Hs2 & Hc2 & Hl2 & Hd2).
    destruct (translate_blocks backend max_retries blocks w1) as [rest w2].
    simpl in *. exists (d1 ++ d2)%list.
    rewrite Hs2, Hs1, Hc2, Hc1, length_app, <- app_assoc.
    repeat split; [lia|lia|by apply Forall_app].
Qed.

(** X5. A run on [texts] sends at least one request for each block and
    at most [max_retries + 1]; there are at most as many blocks as
    texts, and none when there is no text: an empty list sends
    nothing. *)
Theorem request_count_bounds (texts : list string) (w : world) :
  let w' :=
    (translate_texts_in_blocks backend max_block_size max_retries texts w).2 in
  let n := length (blocks_of max_block_size texts) in
  calls w + n ≤ calls w'
  ∧ calls w' ≤ calls w + n * (max_retries + 1)
  ∧ n ≤ length texts
  ∧ (n = 0 ↔ texts = []).
Proof.
  intros w' n. subst w' n. rewrite translate_texts_in_blocks_blocks.
  destruct (translate_blocks_effects (blocks_of max_block_size texts) w)
    as (delays & _ & Hc & Hl & _).
  rewrite Hc. repeat split; try lia.
  - apply (blocks_from_count max_block_size texts [] 0).
  - intros Hn. apply nil_length_inv in Hn.
    rewrite <- (blocks_of_concat max_block_size texts). by rewrite Hn.
  - by intros ->.
Qed.

(** X6. The delays a run sleeps: each one is at least 2 seconds and at
    most twice [max_retries], every request beyond the first of a block
    comes after one delay, and with [max_retries = 0] the run never
    sleeps. *)
Theorem delays_bounded_one_per_retry (texts : list string) (w : world) :
  let w' :=
    (translate_texts_in_blocks backend max_block_size max_retries texts w).2 in
  ∃ delays,
    slept w' = (slept w ++ delays)%list
    ∧ Forall (λ d, 2 ≤ d ≤ 2 * max_retries) delays
    ∧ calls w' = calls w + length (blocks_of max_block_size texts)
                 + length delays
    ∧ length delays ≤ length (blocks_of max_block_size texts) * max_retries.
Proof.
  intros w'. subst w'. rewrite translate_texts_in_blocks_blocks.
  destruct (translate_blocks_effects (blocks_of max_block_size texts) w)
    as (delays & Hs & Hc & Hl & Hd).
  by exists delays.
Qed.

Lemma translate_block_unanswered (current_block : list string) (w : world) :
  (∀ k request_text translated,
     backend k request_text = Returned translated → translated = "") →
  (translate_block backend max_retries current_block w).1 = current_block.
Proof.
  intros Hmute. unfold translate_block.
  pose proof (retry_some backend max_retries (Str.join SEP current_block) w)
    as Hsome.
  destruct (translate_block_with_retry backend max_retries
              (Str.join SEP current_block) 0 w) as [[translated|] w1];
    simpl in *; [|done].
  destruct (Hsome translated eq_refl) as [k Hk].
  by rewrite (Hmute _ _ _ Hk).
Qed.

(** X7. When the service gives no request a text (every request fails,
    or is answered with the empty text), the translator returns the
    texts it was given, unchanged and in their order. *)
Theorem unanswered_texts_come_back (texts : list string) (w : world) :
  (∀ k request_text translated,
     backend k request_text = Returned translated → translated = "") →
  (translate_texts_in_blocks backend max_block_size max_retries texts w).1
  = texts.
Proof.
  intros Hmute. rewrite translate_texts_in_blocks_blocks.
  rewrite <- (blocks_of_concat max_block_size texts) at 2.
  generalize (blocks_of max_block_size texts) as blocks. intros blocks.
  revert w. induction blocks as [|block blocks IH]; intros w; [done|].
  cbn [translate_blocks].
  pose proof (translate_block_unanswered block w Hmute) as Hblock.
  destruct (translate_block backend max_retries block w) as [block_out w1].
  specialize (IH w1).
  destruct (translate_blocks backend max_retries blocks w1) as [rest w2].
  simpl in *. by rewrite Hblock, IH.
Qed.

Lemma translate_block_answered (current_block : list string) (w : world)
    (blob : string) :
  backend (calls w) (Str.join SEP current_block) = Returned blob →
  blob ≠ "" →
  let segments := Str.split SEP (Str.strip blob) in
  translate_block backend max_retries current_block w
  = (take (length current_block)
          (segments ++ drop (length segments) current_block)%list,
     request w).
Proof.
  intros Hanswer Hblob segments. subst segments. unfold translate_block.
  destruct (retry_spec backend max_retries (Str.join SEP current_block) 0 w)
    as (n & _ & Hk & Hc & Hs & Hlast).
  destruct n as [|n].
  - rewrite Nat.add_0_r, Hanswer in Hlast.
    destruct (translate_block_with_retry backend max_retries
                (Str.join SEP current_block) 0 w) as [translated_block w1].
    simpl in Hc, Hs, Hlast. subst translated_block.
    destruct blob as [|c blob]; [done|]. cbn [Str.is_empty].
    rewrite pad_closed_form. f_equal.
    destruct w1 as [calls1 slept1], w as [calls0 slept0]. simpl in *.
    unfold request. simpl. rewrite app_nil_r in Hs. f_equal; [lia|done].
  - destruct (Hk 0) as (e & He & _); [lia|].
    rewrite Nat.add_0_r in He. congruence.
Qed.

(** X8. A block whose first request is answered with a text that is not
    empty costs one request and no delay, and its texts are replaced
    by the segments of the answer, position by position: segments beyond
    the number of texts are dropped, and where segments are missing the
    texts at those positions stay as they were. *)
Theorem answered_block_segments (current_block : list string) (w : world)
    (blob : string) :
  backend (calls w) (Str.join SEP current_block) = Returned blob →
  blob ≠ "" →
  let segments := Str.split SEP (Str.strip blob) in
  translate_block backend max_retries current_block w
  = (take (length current_block)
          (segments ++ drop (length segments) current_block)%list,
     request w).
Proof. apply translate_block_answered. Qed.

End Effects.

Lemma unanswered_texts_come_back_witness :
  (translate_texts_in_blocks unreachable 12 1
     ["open"; "close"; "save as"] (World 0 [])).1
  = ["open"; "close"; "save as"].
Proof.
  apply (unanswered_texts_come_back unreachable 12 1).
  intros k request_text translated Hanswer. discriminate Hanswer.
Defined.

Lemma answered_block_segments_witness :
  translate_block shouting 3 ["open"; "close"] (World 7 [2])
  = (["OPEN"; "CLOSE"], World 8 [2]).
Proof.
  apply (answered_block_segments shouting 3 ["open"; "close"] (World 7 [2])
           (Str.upper (Str.join SEP ["open"; "close"]))).
  - reflexivity.
  - vm_compute. discriminate.
Defined.

(** ** What every extracted item satisfies *)

Section Items.
Import Str.

Lemma Forall_concat_imap_lookup {A B : Type} (P : B → Prop) (l : list A) :
  ∀ f : nat → A → list B,
    (∀ i x, l !! i = Some x → Forall P (f i x)) →
    Forall P (concat (imap f l)).
Proof.
  induction l as [|x l IH]; intros f Hf; simpl; [done|].
  apply Forall_app. split; [by apply Hf|].
  apply IH. intros i y Hy. by apply (Hf (S i)).
Qed.

Lemma extract_cell_Forall (P : Item.t → Prop) (file_path : string)
    (line_num : nat) (original_line : string) (col_index : nat)
    (part : string) :
  (is_empty (strip part) = false →
   is_number_or_scientific (strip part) = false →
   (String.length (strip part) <? 2)%nat = false →
   bracketed (strip part) = false →
   has_letter (strip part) = true →
   P (Item.mk file_path line_num (strip part) original_line
              (csv_cell col_index))) →
  Forall P (extract_cell file_path line_num original_line col_index part).
Proof.
  intros HP. unfold extract_cell.
  destruct (is_empty (strip part)) eqn:He; [done|].
  destruct (String.eqb (strip part) "-"); [done|].
  destruct (is_number_or_scientific (strip part)) eqn:Hn; [done|].
  destruct (String.length (strip part) <? 2)%nat eqn:Hl; [done|]. simpl.
  destruct (bracketed (strip part)) eqn:Hb; [done|].
  destruct (has_letter (strip part)) eqn:Hh; [|done].
  constructor; [by apply HP|done].
Qed.

(** One statement for the four rules: a property that holds of the item
    each rule builds, under the tests the rule makes, holds of every item
    of the line. *)
Lemma extract_line_Forall (P : Item.t → Prop) (file_path : string)
    (line_num : nat) (original_line : string) :
  let line := strip original_line in
  (∀ key value,
     partition "=" line = Some (key, value) →
     is_empty (strip value) = false →
     startswith "C:\" (strip value) = false →
     is_number_or_scientific (strip value) = false →
     (String.length (strip value) <? 2)%nat = false →
     bracketed (strip value) = false →
     has_letter (strip value) = true →
     startswith "http" (strip value) = false →
     P (Item.mk file_path line_num (strip value) original_line
                (key_value (strip key)))) →
  (∀ col_index part,
     split ";" line !! col_index = Some part →
     is_empty (strip part) = false →
     is_number_or_scientific (strip part) = false →
     (String.length (strip part) <? 2)%nat = false →
     bracketed (strip part) = false →
     has_letter (strip part) = true →
     P (Item.mk file_path line_num (strip part) original_line
                (csv_cell col_index))) →
  (∀ key value,
     partition ": " line = Some (key, value) →
     is_empty (strip value) = false →
     is_number_or_scientific (strip value) = false →
     (String.length (strip value) <? 2)%nat = false →
     bracketed (strip value) = false →
     has_letter (strip value) = true →
     P (Item.mk file_path line_num (strip value) original_line
                (colon_value (strip key)))) →
  (bracketed line = false →
   has_letter line = true →
   (2 <=? String.length line)%nat = true →
   P (Item.mk file_path line_num line original_line full_line)) →
  Forall P (extract_line file_path line_num original_line).
Proof.
  intros line Heq Hcell Hcolon Hfree. unfold extract_line. fold line.
  destruct (is_empty line || _ || _ || _); [done|].
  destruct (contains "=" line).
  { unfold split_once.
    destruct (partition "=" line) as [[key value]|] eqn:Hpart; [|done].
    destruct (is_empty (strip value)) eqn:He; [done|].
    destruct (startswith "C:\" (strip value)) eqn:Hc; [done|].
    destruct (is_number_or_scientific (strip value)) eqn:Hn; [done|].
    destruct (String.length (strip value) <? 2)%nat eqn:Hl; [done|]. simpl.
    destruct (bracketed (strip value)) eqn:Hb; [done|].
    destruct (has_letter (strip value)) eqn:Hh; [|done].
    destruct (startswith "http" (strip value)) eqn:Hhttp; [done|]. simpl.
    constructor; [by apply (Heq key value)|done]. }
  destruct (contains ";" line).
  { apply Forall_concat_imap_lookup. intros i part Hpart.
    apply extract_cell_Forall. by apply Hcell. }
  destruct (contains ": " line).
  { unfold split_once.
    destruct (partition ": " line) as [[key value]|] eqn:Hpart; [|done].
    destruct (is_empty (strip value)) eqn:He; [done|].
    destruct (is_number_or_scientific (strip value)) eqn:Hn; [done|].
    destruct (String.length (strip value) <? 2)%nat eqn:Hl; [done|]. simpl.
    destruct (bracketed (strip value)) eqn:Hb; [done|].
    destruct (has_letter (strip value)) eqn:Hh; [|done].
    constructor; [by apply (Hcolon key value)|done]. }
  destruct (bracketed line) eqn:Hb; [done|].
  destruct (has_letter line) eqn:Hh; [|done].
  destruct (2 <=? String.length line)%nat eqn:Hl; [|done].
  constructor; [by apply Hfree|done].
Qed.

(** [strip] twice is [strip] once. *)
Lemma lstrip_with_head (p : ascii → bool) (s : string) :
  match lstrip_with p s with
  | String c _ => p c = false
  | EmptyString => True
  end.
Proof.
  induction s as [|c s IH]; simpl; [done|].
  by destruct (p c) eqn:Hc; [|simpl].
Qed.

Lemma rstrip_with_head (p : ascii → bool) (s : string) :
  match rstrip_with p s, s with
  | String c _, String d _ => c = d
  | String _ _, EmptyString => False
  | EmptyString, _ => True
  end.
Proof.
  destruct s as [|d s]; simpl; [done|].
  by destruct (is_empty (rstrip_with p s) && p d).
Qed.

Lemma rstrip_with_idem (p : ascii → bool) (s : string) :
  rstrip_with p (rstrip_with p s) = rstrip_with p s.
Proof.
  induction s as [|c s IH]; simpl; [done|].
  destruct (is_empty (rstrip_with p s) && p c) eqn:Hc; [done|].
  simpl. by rewrite IH, Hc.
Qed.

Lemma strip_idem (s : string) : strip (strip s) = strip s.
Proof.
  unfold strip.
  assert (Hl : lstrip_with is_space (rstrip_with is_space (lstrip_with is_space s))
               = rstrip_with is_space (lstrip_with is_space s)).
  { pose proof (lstrip_with_head is_space s) as Hhead.
    pose proof (rstrip_with_head is_space (lstrip_with is_space s)) as Hr.
    destruct (rstrip_with is_space (lstrip_with is_space s)) as [|c r];
      [done|].
    destruct (lstrip_with is_space s) as [|d t]; [done|]. subst d.
    simpl. by rewrite Hhead. }
  by rewrite Hl, rstrip_with_idem.
Qed.

Lemma extract_content_Forall (P : Item.t → Prop) (file_path : string)
    (content : option (list string)) :
  (∀ line_num original_line,
     Forall P (extract_line file_path line_num original_line)) →
  Forall P (extract_translatable_content file_path content).
Proof.
  intros HP. destruct content as [lines|]; simpl; [|constructor].
  apply Forall_concat_imap. intros i line. apply HP.
Qed.

(** X9. Every item extracted from a file carries the path of the file,
    and its line number and original line are those of a line of the
    file: [line_num] is in range and the line found there is
    [original_line]. *)
Theorem items_point_at_their_lines (file_path : string) (lines : list string) :
  Forall (λ item,
            Item.file_path item = file_path
            ∧ lines !! Item.line_num item = Some (Item.original_line item))
         (extract_translatable_content file_path (Some lines)).
Proof.
  simpl. apply Forall_concat_imap_lookup. intros i original_line Hline.
  apply extract_line_Forall; intros; by split.
Qed.

(** X10. The value of every extracted item holds an ASCII letter, has at
    least two characters, does not hold both square brackets, and has no
    white space at its ends. *)
Theorem item_values_are_texts (file_path : string)
    (content : option (list string)) :
  Forall (λ item,
            has_letter (Item.value item) = true
            ∧ 2 ≤ String.length (Item.value item)
            ∧ bracketed (Item.value item) = false
            ∧ strip (Item.value item) = Item.value item)
         (extract_translatable_content file_path content).
Proof.
  apply extract_content_Forall. intros line_num original_line.
  apply extract_line_Forall; simpl; intros; repeat split;
    try done; try apply strip_idem;
    try (by apply Nat.ltb_ge); by apply Nat.leb_le.
Qed.

(** X11. The value of an item of type [key_value], [colon_value] or
    [csv_cell] is not numeric for [is_number_or_scientific]; in
    particular it does not end with the letter e or E.  A [key_value]
    value starts neither with [C:\] nor with [http]. *)
Theorem keyed_and_cell_values_are_not_numeric (file_path : string)
    (content : option (list string)) :
  Forall (λ item,
            match Item.type item with
            | full_line => True
            | key_value _ =>
                is_number_or_scientific (Item.value item) = false
                ∧ endswith_char "E" (upper (strip (Item.value item))) = false
                ∧ startswith "C:\" (Item.value item) = false
                ∧ startswith "http" (Item.value item) = false
            | _ =>
                is_number_or_scientific (Item.value item) = false
                ∧ endswith_char "E" (upper (strip (Item.value item))) = false
            end)
         (extract_translatable_content file_path content).
Proof.
  assert (HE : ∀ v, is_number_or_scientific v = false →
                    endswith_char "E" (upper (strip v)) = false).
  { intros v Hv. destruct (endswith_char "E" (upper (strip v))) eqn:HE; [|done].
    by rewrite (ends_in_E_is_numeric v HE) in Hv. }
  apply extract_content_Forall. intros line_num original_line.
  apply extract_line_Forall; simpl; intros; repeat split; auto.
Qed.

(** X12. An item of type [csv_cell] names a field the line has: its
    [column_index] is below the number of fields of the stripped line,
    and its value is that field without the white space at its ends.
    So the column test of the rewriter holds for it, and the line
    written for it is the original fields with that one replaced. *)
Theorem cell_items_name_a_field (file_path : string)
    (content : option (list string)) :
  Forall (λ item,
            match Item.type item with
            | csv_cell col_index =>
                (∃ part,
                   split ";" (strip (Item.original_line item)) !! col_index
                   = Some part
                   ∧ Item.value item = strip part)
                ∧ ∀ translated,
                    new_line (Update.mk (Item.line_num item) (Item.value item)
                                translated (Item.original_line item)
                                (csv_cell col_index))
                    = join ";" (<[col_index := translated]>
                                  (split ";" (strip (Item.original_line item))))
                      ++ LF
            | _ => True
            end)
         (extract_translatable_content file_path content).
Proof.
  apply extract_content_Forall. intros line_num original_line.
  apply extract_line_Forall; simpl; try done.
  intros col_index part Hpart _ _ _ _ _. split; [by exists part|].
  intros translated. unfold new_line. simpl.
  apply lookup_lt_Some in Hpart.
  by destruct (Nat.ltb_spec col_index
                 (length (split ";" (strip original_line)))); [|lia].
Qed.

Lemma prefix_app_drop (sep s : string) :
  String.prefix sep s = true → s = sep ++ drop (String.length sep) s.
Proof.
  revert s. induction sep as [|c sep IH]; intros s Hs; [by destruct s|].
  destruct s as [|d s]; [done|]. simpl in Hs.
  destruct (ascii_dec c d) as [->|]; [|done].
  simpl. f_equal. by apply IH.
Qed.

Lemma partition_app (sep s before after : string) :
  partition sep s = Some (before, after) → s = before ++ sep ++ after.
Proof.
  revert before. induction s as [|c s IH]; intros before; cbn [partition].
  - destruct (String.prefix sep "") eqn:Hp; [|done].
    intros [= <- <-]. by apply prefix_app_drop.
  - destruct (String.prefix sep (String c s)) eqn:Hp.
    + intros [= <- <-]. by apply prefix_app_drop.
    + destruct (partition sep s) as [[b a]|]; [|done].
      intros [= <- <-]. simpl. f_equal. by apply IH.
Qed.

Lemma partition_equals_before (s before after : string) :
  partition "=" s = Some (before, after) → contains "=" before = false.
Proof.
  revert before. induction s as [|c s IH]; intros before; cbn [partition].
  - done.
  - destruct (String.prefix "=" (String c s)) eqn:Hp.
    + by intros [= <- <-].
    + destruct (partition "=" s) as [[b a]|]; [|done].
      intros [= <- <-]. cbn [contains].
      rewrite prefix_equals_cons in Hp. rewrite prefix_equals_cons, Hp.
      by apply IH.
Qed.

(** X13. Every [key_value] item comes from a cut at the first [=] of the
    stripped line: the key is the text before it and the value the text
    after it, both without the white space at their ends, so a value
    keeps the [=] signs it holds.  A [colon_value] item comes in the same
    way from a cut at a colon followed by a space. *)
Theorem keyed_items_cut_the_line (file_path : string)
    (content : option (list string)) :
  Forall (λ item,
            match Item.type item with
            | key_value key =>
                ∃ before after,
                  strip (Item.original_line item) = before ++ "=" ++ after
                  ∧ contains "=" before = false
                  ∧ key = strip before
                  ∧ Item.value item = strip after
            | colon_value key =>
                ∃ before after,
                  strip (Item.original_line item) = before ++ ": " ++ after
                  ∧ key = strip before
                  ∧ Item.value item = strip after
            | _ => True
            end)
         (extract_translatable_content file_path content).
Proof.
  apply extract_content_Forall. intros line_num original_line.
  apply extract_line_Forall; simpl; try done.
  - intros key value Hpart _ _ _ _ _ _ _. exists key, value.
    repeat split; [exact (partition_app "=" _ _ _ Hpart)|].
    by apply partition_equals_before in Hpart.
  - intros key value Hpart _ _ _ _ _. exists key, value.
    repeat split. exact (partition_app ": " _ _ _ Hpart).
Qed.

End Items.

(** ** The name of the file written *)

Section OutputName.
Import Str StrFacts.

Lemma prefix_length (sep s : string) :
  String.prefix sep s = true → String.length sep ≤ String.length s.
Proof.
  revert s. induction sep as [|c sep IH]; intros s Hs; simpl; [lia|].
  destruct s as [|d s]; [done|]. simpl in Hs.
  destruct (ascii_dec c d); [|done]. apply IH in Hs. simpl. lia.
Qed.

(** The characters of a text are those of its pieces and of the
    separators between them. *)
Lemma split_from_length (sep : string) (s : string) :
  sep ≠ "" →
  ∀ skip,
    split_from sep skip s ≠ []
    ∧ fold_right (λ x n, String.length x + n) 0 (split_from sep skip s)
      + (length (split_from sep skip s) - 1) * String.length sep
      + skip `min` String.length s
      = String.length s.
Proof.
  intros Hsep.
  assert (0 < String.length sep) by (destruct sep; [done|simpl; lia]).
  induction s as [|c s IH]; intros skip.
  { simpl. split; [done|lia]. }
  destruct skip as [|k]; cbn [split_from].
  - destruct (String.prefix sep (String c s)) eqn:Hp.
    + apply prefix_length in Hp. simpl in Hp.
      destruct (IH (String.length sep - 1)) as [Hne Hlen].
      split; [done|]. simpl.
      destruct (split_from sep (String.length sep - 1) s); [done|].
      simpl in *. lia.
    + destruct (IH 0) as [Hne Hlen].
      destruct (split_from sep 0 s) as [|seg segs]; [done|].
      split; [done|]. simpl in *. lia.
  - destruct (IH k) as [Hne Hlen]. split; [done|]. simpl. lia.
Qed.

Lemma join_length (sep : string) (l : list string) :
  String.length (join sep l)
  = fold_right (λ x n, String.length x + n) 0 l
    + (length l - 1) * String.length sep.
Proof.
  unfold join. induction l as [|x l IH]; [done|].
  destruct l as [|y l]; [simpl; lia|].
  change (String.concat sep (x :: y :: l))
    with (x ++ sep ++ String.concat sep (y :: l)).
  rewrite !length_append, IH. simpl. lia.
Qed.

Lemma replace_length (old new s : string) :
  old ≠ "" →
  String.length (replace old new s)
  + (length (split old s) - 1) * String.length old
  = String.length s + (length (split old s) - 1) * String.length new.
Proof.
  intros Hold. unfold replace. rewrite join_length.
  destruct (split_from_length old s Hold 0) as [_ Hlen].
  fold (split old s) in Hlen. lia.
Qed.

Lemma split_without (sep s : string) :
  contains sep s = false → split sep s = [s].
Proof.
  unfold split. induction s as [|c s IH]; cbn [contains split_from]; [done|].
  intros Hs. apply orb_false_elim in Hs as [-> Hs]. by rewrite (IH Hs).
Qed.

Lemma split_with (sep s : string) :
  sep ≠ "" → contains sep s = true → 2 ≤ length (split sep s).
Proof.
  intros Hsep. unfold split.
  induction s as [|c s IH]; cbn [contains split_from].
  - by destruct sep.
  - destruct (String.prefix sep (String c s)).
    + intros _. destruct (split_from_length sep s Hsep (String.length sep - 1))
        as [Hne _].
      destruct (split_from sep (String.length sep - 1) s); [done|simpl; lia].
    + rewrite orb_false_l. intros Hs. specialize (IH Hs).
      destruct (split_from sep 0 s); simpl in *; lia.
Qed.

Lemma replace_without (old new s : string) :
  contains old s = false → replace old new s = s.
Proof.
  intros Hs. unfold replace. rewrite (split_without _ _ Hs). done.
Qed.

(** X14. A name that holds [.dat] or [.txt] gets a longer name for its
    translation, so the file read is not the file written.  A name that
    holds neither is its own output name. *)
Theorem output_file_differs_from_input (file_path : string) :
  if contains ".dat" file_path || contains ".txt" file_path
  then String.length file_path < String.length (output_file file_path)
  else output_file file_path = file_path.
Proof.
  unfold output_file.
  assert (Hdat : ".dat" ≠ "") by done. assert (Htxt : ".txt" ≠ "") by done.
  pose proof (replace_length ".dat" "_translated.dat" file_path Hdat) as H1.
  pose proof (replace_length ".txt" "_translated.txt"
                (replace ".dat" "_translated.dat" file_path) Htxt) as H2.
  change (String.length ".dat") with 4 in H1.
  change (String.length ".txt") with 4 in H2.
  change (String.length "_translated.dat") with 15 in H1.
  change (String.length "_translated.txt") with 15 in H2.
  destruct (contains ".dat" file_path) eqn:Hd.
  - apply (split_with _ _ Hdat) in Hd. simpl. lia.
  - rewrite (replace_without _ _ _ Hd) in *.
    destruct (contains ".txt" file_path) eqn:Ht; simpl.
    + apply (split_with _ _ Htxt) in Ht. lia.
    + by apply replace_without.
Qed.

Lemma prefix_dot_cons (sep : string) (c : ascii) (s : string) :
  is_dot c = false → String.prefix (String "." sep) (String c s) = false.
Proof.
  intros Hc. cbn [String.prefix].
  destruct (ascii_dec "." c) as [<-|]; [|done].
  vm_compute in Hc. discriminate.
Qed.

(** A stem without a dot comes whole before the first piece of what
    follows it. *)
Lemma split_after_stem (sep stem t : string) :
  free_of is_dot stem = true →
  split (String "." sep) (stem ++ t)
  = match split (String "." sep) t with
    | seg :: segs => (stem ++ seg) :: segs
    | [] => [stem]
    end.
Proof.
  assert (Hsep : String "." sep ≠ "") by done.
  destruct (split_from_length (String "." sep) t Hsep 0) as [Hne _].
  unfold split, free_of. induction stem as [|c stem IH]; intros Hstem.
  - simpl. by destruct (split_from (String "." sep) 0 t).
  - simpl in Hstem. apply negb_true_iff, orb_false_elim in Hstem as [Hc Hstem].
    change (String c stem ++ t) with (String c (stem ++ t)).
    cbn [split_from]. rewrite (prefix_dot_cons _ _ _ Hc).
    rewrite IH by (by rewrite Hstem).
    by destruct (split_from (String "." sep) 0 t).
Qed.

(** X15. For a name made of a stem without a dot and the extension
    [.dat] or [.txt], the file written is the stem, [_translated], and
    the same extension. *)
Theorem output_file_of_plain_name (stem : string) :
  free_of is_dot stem = true →
  output_file (stem ++ ".dat") = stem ++ "_translated.dat"
  ∧ output_file (stem ++ ".txt") = stem ++ "_translated.txt".
Proof.
  intros Hstem. unfold output_file, replace. split.
  - rewrite (split_after_stem "dat" stem ".dat" Hstem).
    change (split ".dat" ".dat") with [""; ""]. cbv iota beta.
    change (join "_translated.dat" [stem ++ ""; ""])
      with ((stem ++ "") ++ "_translated.dat").
    rewrite append_nil_r.
    rewrite (split_after_stem "txt" stem "_translated.dat" Hstem).
    change (split ".txt" "_translated.dat") with ["_translated.dat"].
    done.
  - rewrite (split_after_stem "dat" stem ".txt" Hstem).
    change (split ".dat" ".txt") with [".txt"]. cbv iota beta.
    change (join "_translated.dat" [stem ++ ".txt"]) with (stem ++ ".txt").
    rewrite (split_after_stem "txt" stem ".txt" Hstem).
    change (split ".txt" ".txt") with [""; ""]. cbv iota beta.
    change (join "_translated.txt" [stem ++ ""; ""])
      with ((stem ++ "") ++ "_translated.txt").
    by rewrite append_nil_r.
Qed.

End OutputName.

Lemma output_file_of_plain_name_witness :
  output_file ("wave_03" ++ ".dat") = "wave_03" ++ "_translated.dat"
  ∧ output_file ("wave_03" ++ ".txt") = "wave_03" ++ "_translated.txt".
Proof. apply output_file_of_plain_name. vm_compute. reflexivity. Defined.

(** ** The files a run works on *)

Lemma filter_sublist {A : Type} (p : A → bool) (l : list A) :
  List.filter p l `sublist_of` l.
Proof.
  induction l as [|x l IH]; simpl; [constructor|].
  destruct (p x); by constructor.
Qed.

Lemma Forall_sublist {A : Type} (P : A → Prop) (l1 l2 : list A) :
  l1 `sublist_of` l2 → Forall P l2 → Forall P l1.
Proof.
  induction 1 as [|x l1 l2 _ IH|x l1 l2 _ IH]; intros Hall; [done| |].
  - apply Forall_cons in Hall as [Hx Hall]. constructor; auto.
  - apply Forall_cons in Hall as [_ Hall]. auto.
Qed.

Lemma filter_Forall {A : Type} (p : A → bool) (l : list A) :
  Forall (λ x, p x = true) (List.filter p l).
Proof.
  induction l as [|x l IH]; simpl; [constructor|].
  destruct (p x) eqn:Hx; [by constructor|done].
Qed.

Lemma slice_to_sublist {A : Type} (n : Z) (l : list A) :
  slice_to n l `sublist_of` l.
Proof. unfold slice_to. destruct (n <? 0)%Z; apply sublist_take. Qed.

(** The list the slices are cut from. *)
Lemma select_files_sublist (dat_files txt_files : list string)
    (max_files : option Z) (start_index : Z) :
  select_files dat_files txt_files max_files start_index
  `sublist_of`
  List.filter (λ f, negb (Str.endswith "_translated.dat" f)
                    && negb (Str.endswith "_translated.txt" f))
              (dat_files ++ txt_files)%list.
Proof.
  unfold select_files.
  set (all_files := List.filter _ _).
  assert (Hstart : (if (0 <? start_index)%Z
                    then drop (Z.to_nat start_index) all_files
                    else all_files) `sublist_of` all_files).
  { destruct (0 <? start_index)%Z; [apply sublist_drop|done]. }
  destruct max_files as [n|]; [|done].
  destruct (n =? 0)%Z; [done|].
  etrans; [apply slice_to_sublist|done].
Qed.

(** X16. The files a run works on are files the two searches found, in
    the order found, the [.dat] files first; none of them has a name
    that ends with [_translated.dat] or [_translated.txt]; and with a
    positive [max_files] there are at most that many. *)
Theorem select_files_chooses_untranslated (dat_files txt_files : list string)
    (max_files : option Z) (start_index : Z) :
  let all_files := select_files dat_files txt_files max_files start_index in
  all_files `sublist_of` (dat_files ++ txt_files)%list
  ∧ Forall (λ f, Str.endswith "_translated.dat" f = false
                 ∧ Str.endswith "_translated.txt" f = false) all_files
  ∧ match max_files with
    | Some n => (0 < n)%Z → length all_files ≤ Z.to_nat n
    | None => True
    end.
Proof.
  intros all_files. subst all_files.
  pose proof (select_files_sublist dat_files txt_files max_files start_index)
    as Hsub.
  split; [|split].
  - etrans; [done|apply filter_sublist].
  - eapply Forall_sublist; [done|].
    eapply Forall_impl; [apply filter_Forall|].
    intros f Hf. apply andb_true_iff in Hf as [H1 H2].
    by apply negb_true_iff in H1, H2.
  - destruct max_files as [n|]; [|done]. intros Hn.
    unfold select_files. destruct (Z.eqb_spec n 0) as [|_]; [lia|].
    unfold slice_to. destruct (Z.ltb_spec n 0); [lia|].
    rewrite length_take. lia.
Qed.

(** X17. Runs over consecutive windows miss no file and take none
    twice: the [max_files] files from [start_index] on, followed by the
    files from [start_index + max_files] on, are the files from
    [start_index] on. *)
Theorem consecutive_windows_cover (dat_files txt_files : list string)
    (max_files start_index : Z) :
  (0 ≤ start_index)%Z →
  (0 < max_files)%Z →
  (select_files dat_files txt_files (Some max_files) start_index
   ++ select_files dat_files txt_files None (start_index + max_files))%list
  = select_files dat_files txt_files None start_index.
Proof.
  intros Hstart Hmax. unfold select_files, slice_to.
  set (all_files := List.filter _ _).
  destruct (Z.eqb_spec max_files 0) as [|_]; [lia|].
  destruct (Z.ltb_spec max_files 0); [lia|].
  destruct (Z.ltb_spec 0 (start_index + max_files)); [|lia].
  replace (Z.to_nat (start_index + max_files))
    with (Z.to_nat start_index + Z.to_nat max_files) by lia.
  rewrite <- drop_drop.
  destruct (Z.ltb_spec 0 start_index).
  - apply take_drop.
  - replace (Z.to_nat start_index) with 0 by lia. apply take_drop.
Qed.

Lemma consecutive_windows_cover_witness :
  (select_files ["a.dat"; "b_translated.dat"; "c.dat"] ["d.txt"; "e.txt"]
     (Some 2%Z) 1%Z
   ++ select_files ["a.dat"; "b_translated.dat"; "c.dat"] ["d.txt"; "e.txt"]
        None (1 + 2)%Z)%list
  = select_files ["a.dat"; "b_translated.dat"; "c.dat"] ["d.txt"; "e.txt"]
      None 1%Z.
Proof. apply consecutive_windows_cover; lia. Defined.

(** ** The analysis pass *)

Section Analysis.

Variable fs : string → option (encoding * list string).

Lemma analyse_loop_closed_form (all_files : list string) :
  ∀ with_content without_content,
    analyse_loop fs all_files with_content without_content
    = ((with_content
          ++ List.map (λ f, (f, items_of fs f))
               (List.filter (λ f, has_items (items_of fs f)) all_files))%list,
       (without_content
          ++ List.filter (λ f, negb (has_items (items_of fs f))) all_files)%list).
Proof.
  induction all_files as [|f all_files IH]; intros with_content without_content.
  - simpl. by rewrite !app_nil_r.
  - cbn [analyse_loop List.filter]. fold (items_of fs f).
    destruct (has_items (items_of fs f)); rewrite IH; simpl;
      by rewrite <- app_assoc.
Qed.

Lemma total_items_fold (files : list (string * list Item.t)) (n : nat) :
  fold_left (λ total_items '(file_path, items), total_items + length items)
            files n
  = n + length (concat (List.map snd files)).
Proof.
  revert n. induction files as [|[f items] files IH]; intros n; simpl; [lia|].
  rewrite IH, length_app. lia.
Qed.

Lemma items_of_files_with_content (all_files : list string) :
  concat (List.map snd
            (List.map (λ f, (f, items_of fs f))
               (List.filter (λ f, has_items (items_of fs f)) all_files)))
  = concat (List.map (items_of fs) all_files).
Proof.
  induction all_files as [|f all_files IH]; simpl; [done|].
  destruct (items_of fs f) eqn:Hf; simpl; [done|].
  by rewrite Hf, IH.
Qed.

Lemma filter_split_length {A : Type} (p : A → bool) (l : list A) :
  length (List.filter p l) + length (List.filter (λ x, negb (p x)) l)
  = length l.
Proof.
  induction l as [|x l IH]; simpl; [done|].
  destruct (p x); simpl; lia.
Qed.

(** X18. What the analysis reports, in full.  There is no report
    exactly when no file is selected.  Otherwise the report gives the
    number of files selected; the files that have items, each with its
    items, in the order selected; the files that have none, in the order
    selected; and a total, printed exactly when some file has items,
    which is the number of items of all the files selected and is then
    positive.  Every file selected is in one of the two lists and in one
    only. *)
Theorem analysis_report (dat_files txt_files : list string)
    (max_files : option Z) (start_index : Z) :
  let all_files := select_files dat_files txt_files max_files start_index in
  let with_content :=
    List.map (λ f, (f, items_of fs f))
      (List.filter (λ f, has_items (items_of fs f)) all_files) in
  let without_content :=
    List.filter (λ f, negb (has_items (items_of fs f))) all_files in
  analyze_files_only fs dat_files txt_files max_files start_index
  = match all_files with
    | [] => None
    | _ :: _ =>
        Some (Report (length all_files) with_content without_content
                (match with_content with
                 | [] => None
                 | _ :: _ => Some (count_items fs all_files)
                 end))
    end
  ∧ length all_files = length with_content + length without_content
  ∧ match with_content with
    | [] => count_items fs all_files = 0
    | _ :: _ => 0 < count_items fs all_files
    end.
Proof.
  unfold analyze_files_only. cbv zeta.
  generalize (select_files dat_files txt_files max_files start_index).
  intros all_files.
  set (with_content :=
         List.map (λ f, (f, items_of fs f))
           (List.filter (λ f, has_items (items_of fs f)) all_files)).
  assert (Hcount : count_items fs all_files
                   = length (concat (List.map snd with_content))).
  { unfold count_items, with_content.
    by rewrite items_of_files_with_content. }
  assert (Htotal : fold_left (λ total_items '(file_path, items),
                                total_items + length items) with_content 0
                   = count_items fs all_files).
  { by rewrite total_items_fold, Hcount. }
  split; [|split].
  - destruct all_files as [|f files]; [done|].
    rewrite analyse_loop_closed_form. cbn [app]. fold with_content.
    destruct with_content as [|[f0 items0] rest]; [done|].
    by rewrite Htotal.
  - unfold with_content. rewrite length_map.
    symmetry. apply filter_split_length.
  - rewrite Hcount.
    destruct with_content as [|[f0 items0] rest] eqn:Hwith; [done|].
    assert (Hin : (f0, items0) ∈ with_content) by (rewrite Hwith; left).
    unfold with_content in Hin.
    apply list_elem_of_In, in_map_iff in Hin as (f1 & [= <- <-] & Hf1).
    apply filter_In in Hf1 as [_ Hf1].
    simpl. rewrite length_app. destruct (items_of fs f1); [done|simpl; lia].
Qed.

End Analysis.

(** ** One file, from its lines to the lines written *)

Section Pipeline.
Import Str StrFacts.

Lemma ends_with_newline_String (c : ascii) (s : string) :
  ends_with_newline (String c s)
  = if is_empty s then Ascii.eqb c NL else ends_with_newline s.
Proof.
  unfold ends_with_newline, endswith_char. rewrite last_char_cons.
  destruct s as [|d s]; [done|].
  by destruct (last_char_is_Some d s) as [e ->].
Qed.

Lemma split_from_first_empty (sep s : string) (segs : list string) :
  split_from sep 0 s = "" :: segs → s = "" ∨ String.prefix sep s = true.
Proof.
  destruct s as [|c s]; [by left|]. cbn [split_from].
  destruct (String.prefix sep (String c s)); [by right|].
  by destruct (split_from sep 0 s).
Qed.

(** No piece of a text cut at the blank lines ends with a line feed,
    when the text does not. *)
Lemma split_SEP_no_newline (s : string) :
  ∀ skip,
    ends_with_newline s = false →
    Forall (λ x, ends_with_newline x = false) (split_from SEP skip s).
Proof.
  induction s as [|c s IH]; intros skip Hs.
  { by repeat constructor. }
  assert (Hs' : ends_with_newline s = false).
  { rewrite ends_with_newline_String in Hs. by destruct s. }
  destruct skip as [|k]; cbn [split_from]; [|by apply IH].
  destruct (String.prefix SEP (String c s)) eqn:Hp.
  { constructor; [done|by apply IH]. }
  specialize (IH 0 Hs').
  destruct (split_from SEP 0 s) as [|seg segs] eqn:Hsegs.
  { assert (HSEP : SEP ≠ "") by done.
    by destruct (split_from_length SEP s HSEP 0) as [Hne _]. }
  apply Forall_cons in IH as [Hseg Hrest]. constructor; [|done].
  rewrite ends_with_newline_String.
  destruct seg as [|d seg]; [|done]. simpl.
  destruct (split_from_first_empty _ _ _ Hsegs) as [->|Hps].
  - by rewrite ends_with_newline_String in Hs.
  - destruct (Ascii.eqb_spec c NL) as [->|]; [|done].
    apply prefix_app_drop in Hps. rewrite Hps in Hp. by vm_compute in Hp.
Qed.

Lemma strip_no_newline (s : string) : ends_with_newline (strip s) = false.
Proof.
  unfold ends_with_newline, endswith_char.
  destruct (last_char (strip s)) as [c|] eqn:Hc; [|done].
  apply last_char_strip in Hc.
  destruct (Ascii.eqb_spec c NL) as [->|]; [|done].
  by vm_compute in Hc.
Qed.

Lemma paired_no_newline (backend : nat → string → outcome) (text o : string) :
  paired backend text o →
  ends_with_newline text = false →
  ends_with_newline o = false.
Proof.
  intros [->|(k & block & j & blob & _ & _ & Ho)] Htext; [done|].
  apply (Forall_lookup_1 (λ x, ends_with_newline x = false) _ _ _
           (split_SEP_no_newline (strip blob) 0 (strip_no_newline blob)) Ho).
Qed.

Lemma translate_texts_paired (backend : nat → string → outcome)
    (max_block_size max_retries : nat) (texts : list string) (w : world) :
  Forall2 (paired backend) texts
    (translate_texts_in_blocks backend max_block_size max_retries texts w).1.
Proof.
  rewrite translate_texts_in_blocks_blocks.
  rewrite <- (blocks_of_concat max_block_size texts) at 1.
  generalize (blocks_of max_block_size texts) as blocks. intros blocks.
  revert w. induction blocks as [|block blocks IH]; intros w; [constructor|].
  cbn [translate_blocks concat].
  pose proof (translate_block_paired backend max_retries block w) as Hblock.
  destruct (translate_block backend max_retries block w) as [block_out w1].
  specialize (IH w1).
  destruct (translate_blocks backend max_retries blocks w1) as [rest w2].
  by apply Forall2_app.
Qed.

(** The update built for an item, with the text [translated]. *)
Lemma make_updates_spec (P : string → string → Prop) (items : list Item.t) :
  ∀ translated_texts,
    Forall2 P (List.map Item.value items) translated_texts →
    Forall2 (λ item u,
               ∃ translated,
                 u = Update.mk (Item.line_num item) (Item.value item)
                       translated (Item.original_line item) (Item.type item)
                 ∧ P (Item.value item) translated)
            items (make_updates items translated_texts).
Proof.
  induction items as [|item items IH]; intros ts Hts; simpl; [constructor|].
  simpl in Hts. apply Forall2_cons_inv_l in Hts as (t & ts' & Ht & Hts' & ->).
  constructor; [by exists t|]. simpl. by apply IH.
Qed.

Lemma elem_of_concat_imap {A B : Type} (l : list A) :
  ∀ (f : nat → A → list B) (y : B),
    y ∈ concat (imap f l) ↔ ∃ i x, l !! i = Some x ∧ y ∈ f i x.
Proof.
  induction l as [|x l IH]; intros f y; simpl.
  - split; [by intros ?%elem_of_nil|by intros (i & z & ? & _)].
  - rewrite elem_of_app, IH. split.
    + intros [Hy|(i & z & Hz & Hy)]; [by exists 0, x|by exists (S i), z].
    + intros ([|i] & z & Hz & Hy); simpl in Hz.
      * left. by injection Hz as ->.
      * right. by exists i, z.
Qed.

Lemma extract_line_line_num (file_path : string) (line_num : nat)
    (original_line : string) :
  Forall (λ item, Item.line_num item = line_num
                  ∧ Item.original_line item = original_line)
         (extract_line file_path line_num original_line).
Proof. apply extract_line_Forall; by intros. Qed.

Lemma item_values_no_newline (file_path : string) (lines : list string) :
  Forall (λ item, ends_with_newline (Item.value item) = false)
         (extract_translatable_content file_path (Some lines)).
Proof.
  apply extract_content_Forall. intros line_num original_line.
  apply extract_line_Forall; intros; simpl; apply strip_no_newline.
Qed.

(** X19. One file through extraction, translation and rewriting, for
    any service.  A file that cannot be read, or has no item, is not
    written.  Otherwise one file is written, in UTF-8, under the output
    name; the list handed to the writer has one entry for each line
    read; the entry of a line without an item is the line as it was
    read, and the entry of a line with an item ends with exactly one
    line feed, whatever the service answered.  (An entry holds more than
    one line of the file when the answer has a line feed inside a
    segment, see [answer_of_two_lines_gives_one_entry].) *)
Theorem process_file_rewrites_item_lines (backend : nat → string → outcome)
    (file_path : string) (used_encoding : encoding) (lines : list string) :
  process_file backend file_path None = None
  ∧ match process_file backend file_path (Some (used_encoding, lines)) with
    | None => extract_translatable_content file_path (Some lines) = []
    | Some out =>
        extract_translatable_content file_path (Some lines) ≠ []
        ∧ written_name out = output_file file_path
        ∧ written_encoding out = utf_8
        ∧ length (written_lines out) = length lines
        ∧ ∀ i line,
            lines !! i = Some line →
            ∃ line',
              written_lines out !! i = Some line'
              ∧ if has_items (extract_line file_path i line)
                then ends_with_single_newline line' = true
                else line' = line
    end.
Proof.
  split; [done|]. unfold process_file.
  change (snd <$> Some (used_encoding, lines)) with (Some lines).
  destruct (extract_translatable_content file_path (Some lines))
    as [|item0 items0] eqn:Hitems; [done|].
  rewrite <- Hitems.
  pose proof (item_values_no_newline file_path lines) as Hvalues.
  set (items := extract_translatable_content file_path (Some lines)) in *.
  set (translated_texts := (translate_texts_in_blocks _ _ _ _ _).1).
  pose proof (translate_texts_paired backend default_max_block_size
                default_max_retries (List.map Item.value items) (World 0 []))
    as Hpaired.
  fold translated_texts in Hpaired.
  apply make_updates_spec in Hpaired.
  set (updates := make_updates items translated_texts) in *.
  cbn [update_file_with_translations written_name written_encoding
       written_lines].
  split; [by rewrite Hitems|]. do 2 (split; [done|]).
  split; [apply apply_updates_length|].
  intros i line Hline.
  assert (Hends : Forall (λ u, ends_with_newline (Update.translated_value u)
                               = false) updates).
  { apply Forall_lookup. intros k u Hu.
    destruct (Forall2_lookup_r _ _ _ _ _ Hpaired Hu)
      as (item & Hitem & t & -> & Ht).
    simpl. eapply paired_no_newline; [done|].
    by eapply (Forall_lookup_1 _ _ _ _ Hvalues). }
  assert (Hlines : ∀ u, u ∈ updates →
            ∃ item, item ∈ items ∧ Update.line_num u = Item.line_num item).
  { intros u [k Hu]%list_elem_of_lookup.
    destruct (Forall2_lookup_r _ _ _ _ _ Hpaired Hu)
      as (item & Hitem & t & -> & _).
    exists item. split; [by eapply list_elem_of_lookup_2|done]. }
  assert (Hsame : ∀ item, item ∈ items → Item.line_num item = i →
                          item ∈ extract_line file_path i line).
  { intros item Hin Hnum. subst items. simpl in Hin.
    apply elem_of_concat_imap in Hin as (j & l & Hl & Hin).
    pose proof (extract_line_line_num file_path j l) as Hj.
    rewrite Forall_forall in Hj. destruct (Hj _ Hin) as [Hj1 _].
    rewrite Hnum in Hj1. subst j.
    assert (l = line) by congruence. by subst l. }
  destruct (extract_line file_path i line) as [|item1 rest] eqn:Hextract;
    cbn [has_items].
  - exists line. split; [|done].
    rewrite apply_updates_frame; [done|].
    intros u Hu Hnum. destruct (Hlines u Hu) as (item & Hin & Heq).
    specialize (Hsame item Hin ltac:(congruence)).
    by apply elem_of_nil in Hsame.
  - assert (Hin : item1 ∈ items).
    { subst items. simpl. apply elem_of_concat_imap.
      exists i, line. split; [done|]. rewrite Hextract. left. }
    pose proof (extract_line_line_num file_path i line) as Hi.
    rewrite Hextract in Hi. apply Forall_cons in Hi as [[Hi _] _].
    apply list_elem_of_lookup in Hin as [k Hk].
    destruct (Forall2_lookup_l _ _ _ _ _ Hpaired Hk) as (u & Hu & t & -> & _).
    apply list_elem_of_lookup_2 in Hu.
    destruct (apply_updates_endings updates lines Hends _ Hu) as (l' & Hl' & He).
    { simpl. rewrite Hi. by eapply lookup_lt_Some. }
    simpl in Hl'. rewrite Hi in Hl'. by exists l'.
Qed.

End Pipeline.

(** ** The line written for a line with items *)

Lemma filter_none {A : Type} (p : A → bool) (l : list A) :
  Forall (λ x, p x = false) l → List.filter p l = [].
Proof.
  induction 1 as [|x l Hx _ IH]; simpl; [done|]. by rewrite Hx.
Qed.

Lemma last_update_for_middle (i : nat) (before after : list Update.t)
    (u : Update.t) :
  Update.line_num u = i →
  Forall (λ u', Update.line_num u' ≠ i) after →
  last_update_for i (before ++ u :: after) = Some u.
Proof.
  intros Hu Hafter. unfold last_update_for.
  rewrite List.filter_app. simpl.
  rewrite (proj2 (Nat.eqb_eq _ _) Hu).
  rewrite (filter_none _ after).
  - apply last_snoc.
  - eapply Forall_impl; [done|]. intros u' Hu'. by apply Nat.eqb_neq.
Qed.

(** The items of a file, cut at line [i]: those of the lines before,
    those of the line, those of the lines after. *)
Lemma items_cut_at_line (file_path : string) (lines : list string) (i : nat)
    (line : string) :
  lines !! i = Some line →
  ∃ before after,
    extract_translatable_content file_path (Some lines)
    = (before ++ extract_line file_path i line ++ after)%list
    ∧ Forall (λ item, Item.line_num item ≠ i) after.
Proof.
  intros Hline. simpl.
  assert (Hcut : concat (imap (extract_line file_path) lines)
                 = concat (imap (extract_line file_path)
                             (take i lines ++ line :: drop (S i) lines)%list))
    by (by rewrite take_drop_middle).
  rewrite Hcut, imap_app, concat_app, imap_cons. simpl.
  assert (Hi : length (take i lines) = i).
  { apply length_take_le. apply lookup_lt_Some in Hline. lia. }
  rewrite Hi, Nat.add_0_r.
  eexists _, _. split; [done|].
  apply Forall_concat_imap. intros n l. simpl.
  eapply Forall_impl; [apply extract_line_line_num|].
  intros item [Hnum _]. lia.
Qed.

(** X20. A line with items is rewritten from its last item alone: the
    line written is the one the rule of that item builds (key, [=] and
    text; key, colon, space and text; the original fields with that one
    field replaced; or the text alone), with the text that stands for
    the item's value.  The rules [=], colon and free text give one item
    for a line; on a semicolon line only the last translatable field is
    translated. *)
Theorem line_rewritten_from_its_last_item (backend : nat → string → outcome)
    (file_path : string) (used_encoding : encoding) (lines : list string)
    (i : nat) (line : string) (item : Item.t) :
  lines !! i = Some line →
  last (extract_line file_path i line) = Some item →
  ∃ out translated,
    process_file backend file_path (Some (used_encoding, lines)) = Some out
    ∧ paired backend (Item.value item) translated
    ∧ written_lines out !! i
      = Some (new_line (Update.mk i (Item.value item) translated line
                                  (Item.type item))).
Proof.
  intros Hline Hlast. apply last_Some in Hlast as [cells Hcells].
  destruct (items_cut_at_line file_path lines i line Hline)
    as (before & after & Hitems & Hafter).
  rewrite Hcells, <- app_assoc, app_assoc in Hitems.
  change ([item] ++ after)%list with (item :: after) in Hitems.
  pose proof (extract_line_line_num file_path i line) as Hnum.
  rewrite Hcells in Hnum. apply Forall_app in Hnum as [_ Hnum].
  rewrite Forall_singleton in Hnum. destruct Hnum as [Hnum Horig].
  unfold process_file.
  change (snd <$> Some (used_encoding, lines)) with (Some lines).
  rewrite Hitems.
  assert (Hsome : ∀ (l1 l2 : list Item.t) (x : Item.t) (a b : option written),
             match (l1 ++ x :: l2)%list with [] => a | _ :: _ => b end = b)
    by (by intros [|? ?]).
  rewrite Hsome.
  set (items := ((before ++ cells) ++ item :: after)%list).
  set (translated_texts := (translate_texts_in_blocks _ _ _ _ _).1).
  pose proof (translate_texts_paired backend default_max_block_size
                default_max_retries (List.map Item.value items) (World 0 []))
    as Hpaired.
  fold translated_texts in Hpaired. apply make_updates_spec in Hpaired.
  subst items.
  apply Forall2_app_inv_l in Hpaired as (us1 & us2 & _ & Hus2 & Hupdates).
  apply Forall2_cons_inv_l in Hus2 as (u & us3 & (t & Hu & Ht) & Hus3 & ->).
  eexists _, t. split; [done|]. split; [done|].
  cbn [written_lines]. rewrite Hupdates.
  rewrite apply_updates_lookup by (by eapply lookup_lt_Some).
  rewrite (last_update_for_middle i us1 us3 u).
  - by rewrite Hu, Hnum, Horig.
  - by rewrite Hu.
  - apply Forall_lookup. intros k u' Hu'.
    destruct (Forall2_lookup_r _ _ _ _ _ Hus3 Hu')
      as (item' & Hitem' & t' & -> & _).
    simpl. by eapply (Forall_lookup_1 _ _ _ _ Hafter).
Qed.

Lemma line_rewritten_from_its_last_item_witness :
  ∃ out translated,
    process_file shouting "ui.dat"
      (Some (latin_1, ["# menu" ++ LF; "  title = Main menu " ++ LF]))
    = Some out
    ∧ paired shouting "Main menu" translated
    ∧ written_lines out !! 1
      = Some (new_line (Update.mk 1 "Main menu" translated
                          ("  title = Main menu " ++ LF) (key_value "title"))).
Proof.
  apply (line_rewritten_from_its_last_item shouting "ui.dat" latin_1
           ["# menu" ++ LF; "  title = Main menu " ++ LF] 1
           ("  title = Main menu " ++ LF)
           (Item.mk "ui.dat" 1 "Main menu" ("  title = Main menu " ++ LF)
                    (key_value "title")));
    vm_compute; reflexivity.
Defined.

(** ** Words of letters, and the failures taken for network failures *)

Section Words.
Import Str Numeric.

Lemma letter_is_plain (c : ascii) :
  is_ascii_letter c = true →
  is_space c = false ∧ is_sign c = false ∧ is_digit c = false
  ∧ is_decimal c = false ∧ Ascii.eqb c "." = false ∧ Ascii.eqb c "," = false
  ∧ Ascii.eqb c "-" = false ∧ Ascii.eqb c "+" = false
  ∧ is_ascii_letter (upper_char c) = true.
Proof.
  destruct c as [[] [] [] [] [] [] [] []]; vm_compute; intros H;
    first [discriminate H | repeat split].
Qed.

Lemma rstrip_with_none (p : ascii → bool) (s : string) :
  existsb p s = false → rstrip_with p s = s.
Proof.
  induction s as [|c s IH]; simpl; [done|].
  intros Hs. apply orb_false_elim in Hs as [Hc Hs].
  by rewrite (IH Hs), Hc, andb_false_r.
Qed.

Lemma letters_no_space (s : string) :
  forallb is_ascii_letter s = true → existsb is_space s = false.
Proof.
  induction s as [|c s IH]; simpl; [done|].
  intros Hs. apply andb_true_iff in Hs as [Hc Hs].
  destruct (letter_is_plain c Hc) as (-> & _). by rewrite (IH Hs).
Qed.

Lemma letters_no_comma (s : string) :
  forallb is_ascii_letter s = true → contains "," s = false.
Proof.
  induction s as [|c s IH]; [done|]. cbn [forallb contains].
  intros Hs. apply andb_true_iff in Hs as [Hc Hs].
  destruct (letter_is_plain c Hc) as (_ & _ & _ & _ & _ & Hcomma & _).
  rewrite (IH Hs), orb_false_r. cbn [String.prefix].
  destruct (ascii_dec "," c) as [<-|]; [done|done].
Qed.

(** X21. A word of ASCII letters is taken for a number exactly when it
    ends with [e] or [E], or is [inf], [infinity] or [nan] in any
    case. *)
Theorem word_of_letters_numeric_iff (word : string) :
  word ≠ "" →
  forallb is_ascii_letter word = true →
  is_number_or_scientific word
  = endswith_char "E" (upper word)
    || String.eqb (lower word) "inf" || String.eqb (lower word) "infinity"
    || String.eqb (lower word) "nan".
Proof.
  intros Hne Hletters.
  destruct word as [|c word]; [done|].
  pose proof Hletters as Hall. simpl in Hletters.
  apply andb_true_iff in Hletters as [Hc Hword].
  destruct (letter_is_plain c Hc)
    as (Hspace & Hsign & Hdigit & Hdecimal & Hdot & Hcomma & Hminus & Hplus & Hup).
  destruct (letter_is_plain _ Hup)
    as (_ & Hsign' & _ & Hdecimal' & _).
  assert (Hstrip : strip (String c word) = String c word).
  { unfold strip. cbn [lstrip_with]. rewrite Hspace.
    apply rstrip_with_none. by apply letters_no_space. }
  assert (Hfloat : float_parses (String c word)
                   = String.eqb (lower (String c word)) "inf"
                     || String.eqb (lower (String c word)) "infinity"
                     || String.eqb (lower (String c word)) "nan").
  { unfold float_parses. rewrite Hstrip. cbn [opt_sign]. rewrite Hsign.
    unfold number, digitpart. rewrite Hdecimal, Hdot. by rewrite orb_false_r. }
  unfold is_number_or_scientific. rewrite Hstrip.
  cbn [is_empty orb]. 
  assert (Hm : String.eqb (String c word) "-" = false).
  { cbn [String.eqb]. by rewrite Hminus. }
  assert (Hp : String.eqb (String c word) "+" = false).
  { cbn [String.eqb]. by rewrite Hplus. }
  rewrite Hm, Hp. cbn [orb lstrip_with]. rewrite Hsign.
  unfold isdigit. cbn [is_empty negb forallb]. rewrite Hdigit. cbn [andb].
  unfold replace. rewrite (split_without _ _ (letters_no_comma _ Hall)).
  cbn [join String.concat]. rewrite Hfloat.
  unfold match_scientific, match_suffixed, match_fraction.
  change (upper (String c word)) with (String (upper_char c) (upper word)).
  cbn [opt_sign]. rewrite Hsign'. unfold decimals1.
  rewrite Hdecimal', Hdecimal.
  destruct (endswith_char "E" (String (upper_char c) (upper word)));
    destruct (String.eqb _ "inf"); destruct (String.eqb _ "infinity");
    destruct (String.eqb _ "nan"); reflexivity.
Qed.

End Words.

Lemma word_of_letters_numeric_iff_witness :
  is_number_or_scientific "Speed"
  = Str.endswith_char "E" (Str.upper "Speed")
    || String.eqb (Str.lower "Speed") "inf"
    || String.eqb (Str.lower "Speed") "infinity"
    || String.eqb (Str.lower "Speed") "nan".
Proof.
  apply word_of_letters_numeric_iff; [discriminate|reflexivity].
Defined.

Section NetworkErrors.
Import Str.

Lemma prefix_app (sub post : string) : String.prefix sub (sub ++ post) = true.
Proof.
  induction sub as [|c sub IH]; simpl; [by destruct post|].
  by destruct (ascii_dec c c).
Qed.

(** [sub in s] holds exactly when [s] is a text, [sub], and a text. *)
Lemma contains_iff (sub s : string) :
  contains sub s = true ↔ ∃ pre post, s = pre ++ sub ++ post.
Proof.
  split.
  - induction s as [|c s IH]; cbn [contains].
    + rewrite orb_false_r. intros Hp. exists "", (drop (String.length sub) "").
      by apply prefix_app_drop.
    + destruct (String.prefix sub (String c s)) eqn:Hp.
      * intros _. exists "", (drop (String.length sub) (String c s)).
        by apply prefix_app_drop.
      * rewrite orb_false_l. intros Hs.
        destruct (IH Hs) as (pre & post & ->). by exists (String c pre), post.
  - intros (pre & post & ->). induction pre as [|c pre IH].
    + simpl. destruct (sub ++ post) eqn:Heq; cbn [contains];
        rewrite <- Heq, prefix_app; done.
    + change (String c pre ++ sub ++ post)
        with (String c (pre ++ sub ++ post)).
      cbn [contains]. rewrite IH. apply orb_true_r.
Qed.

(** X22. A failure is taken for a network failure, and its request sent
    again, exactly when its description in lower case holds one of the
    six keywords somewhere, inside a longer word as well. *)
Theorem network_error_iff_keyword_inside (description : string) :
  is_network_error description = true
  ↔ ∃ keyword pre post,
      keyword ∈ network_keywords
      ∧ lower description = pre ++ keyword ++ post.
Proof.
  unfold is_network_error. rewrite existsb_exists. split.
  - intros (keyword & Hin & Hk). apply contains_iff in Hk as (pre & post & Hk).
    exists keyword, pre, post. split; [by apply list_elem_of_In|done].
  - intros (keyword & pre & post & Hin & Hk). exists keyword.
    split; [by apply list_elem_of_In|].
    apply contains_iff. by exists pre, post.
Qed.

End NetworkErrors.

(** A keyword inside a word: this failure has nothing to do with the
    network, and its request is sent four times. *)
Example keyword_inside_a_word :
  is_network_error "Unsupported text class: classless" = true.
Proof. vm_compute. reflexivity. Qed.

(** ** A rewritten line read again *)

Section ReadBack.
Import Str StrFacts.

Lemma rstrip_with_app (p : ascii → bool) (a b : string) :
  rstrip_with p b ≠ "" → rstrip_with p (a ++ b) = a ++ rstrip_with p b.
Proof.
  intros Hb. induction a as [|c a IH]; [done|].
  change (String c a ++ b) with (String c (a ++ b)).
  change (String c a ++ rstrip_with p b)
    with (String c (a ++ rstrip_with p b)).
  cbn [rstrip_with]. rewrite IH.
  destruct (a ++ rstrip_with p b) as [|d r] eqn:Hr; [|done].
  destruct a; simpl in Hr; [done|discriminate].
Qed.

Lemma rstrip_with_snoc (p : ascii → bool) (t : string) (d : ascii) :
  p d = true → rstrip_with p (t ++ String d "") = rstrip_with p t.
Proof.
  intros Hd. induction t as [|c t IH]; simpl; [by rewrite Hd|by rewrite IH].
Qed.

Lemma lstrip_rstrip_commute (p : ascii → bool) (t : string) :
  lstrip_with p (rstrip_with p t) = rstrip_with p (lstrip_with p t).
Proof.
  induction t as [|c t IH]; [done|]. cbn [lstrip_with rstrip_with].
  destruct (p c) eqn:Hc.
  - destruct (rstrip_with p t) as [|d r] eqn:Hr; simpl.
    + by rewrite <- IH.
    + rewrite Hc. by rewrite <- IH.
  - rewrite andb_false_r. cbn [lstrip_with rstrip_with].
    by rewrite Hc, andb_false_r.
Qed.

Lemma strip_rstrip (t : string) : strip (rstrip_with is_space t) = strip t.
Proof.
  unfold strip. by rewrite lstrip_rstrip_commute, rstrip_with_idem.
Qed.

Lemma strip_head (s : string) :
  match strip s with
  | String c _ => is_space c = false
  | EmptyString => True
  end.
Proof.
  unfold strip.
  pose proof (lstrip_with_head is_space s) as Hl.
  pose proof (rstrip_with_head is_space (lstrip_with is_space s)) as Hr.
  destruct (rstrip_with is_space (lstrip_with is_space s)) as [|c r]; [done|].
  destruct (lstrip_with is_space s) as [|d t]; [done|]. by subst d.
Qed.

(** The stripped form of a line that starts with a stripped key and an
    [=] sign. *)
Lemma strip_key_line (key rest : string) :
  strip key = key →
  strip (key ++ "=" ++ rest) = key ++ "=" ++ rstrip_with is_space rest.
Proof.
  intros Hkey. unfold strip.
  assert (Hl : lstrip_with is_space (key ++ "=" ++ rest) = key ++ "=" ++ rest).
  { pose proof (strip_head key) as Hhead. rewrite Hkey in Hhead.
    destruct key as [|c key]; [done|]. simpl. by rewrite Hhead. }
  assert (Hr : rstrip_with is_space ("=" ++ rest)
               = "=" ++ rstrip_with is_space rest).
  { change ("=" ++ rest) with (String "=" rest). cbn [rstrip_with].
    by rewrite andb_false_r. }
  rewrite Hl, rstrip_with_app; rewrite Hr; done.
Qed.

(** X23. A line written for a [key_value] update, read again by the
    extraction: it gives one item, with the same key and with the
    translated text, white space at its ends off, as its value, when
    this text goes through the tests of the rule. *)
Theorem rewritten_key_value_line_reads_back (file_path : string)
    (line_num : nat) (update : Update.t) (key : string) :
  Update.type update = key_value key →
  contains "=" key = false →
  strip key = key →
  skipped (strip (new_line update)) = false →
  key_value_translatable (strip (Update.translated_value update)) = true →
  extract_line file_path line_num (new_line update)
  = [Item.mk file_path line_num (strip (Update.translated_value update))
             (new_line update) (key_value key)].
Proof.
  intros Htype Hno Hkey Hskip Hvalue. unfold extract_line.
  unfold skipped in Hskip. rewrite Hskip.
  assert (Hline : strip (new_line update)
                  = key ++ "=" ++ rstrip_with is_space
                                    (Update.translated_value update)).
  { unfold new_line. rewrite Htype, (strip_key_line _ _ Hkey).
    unfold LF. by rewrite rstrip_with_snoc. }
  rewrite Hline, contains_equals_app.
  unfold split_once. rewrite (partition_equals_app _ _ Hno).
  rewrite strip_rstrip, Hkey.
  unfold key_value_translatable in Hvalue.
  apply andb_true_iff in Hvalue as [Hvalue Hletter].
  apply andb_true_iff in Hvalue as [Hchecks Hbracket].
  apply negb_true_iff in Hchecks, Hbracket.
  by rewrite Hchecks, Hbracket, Hletter.
Qed.

End ReadBack.

Lemma rewritten_key_value_line_reads_back_witness :
  extract_line "ui_translated.dat" 4
    (new_line (Update.mk 4 "Main menu" " Menu principal"
                 ("  title = Main menu " ++ LF) (key_value "title")))
  = [Item.mk "ui_translated.dat" 4 "Menu principal"
       (new_line (Update.mk 4 "Main menu" " Menu principal"
                    ("  title = Main menu " ++ LF) (key_value "title")))
       (key_value "title")].
Proof.
  apply (rewritten_key_value_line_reads_back "ui_translated.dat" 4
           (Update.mk 4 "Main menu" " Menu principal"
              ("  title = Main menu " ++ LF) (key_value "title")) "title");
    vm_compute; reflexivity.
Defined.

(** ** The updates built from the items *)

(** X24. The updates are built position by position: the update at a
    position has the line number, value, original line and type of the
    item at that position, and its translated value is the text at that
    position, or the item's own value when the list of texts is too
    short; texts beyond the number of items are not used. *)
Theorem make_updates_by_position (items : list Item.t)
    (translated_texts : list string) :
  make_updates items translated_texts
  = imap (λ i item,
            Update.mk (Item.line_num item) (Item.value item)
              (default (Item.value item) (translated_texts !! i))
              (Item.original_line item) (Item.type item))
         items.
Proof.
  revert translated_texts.
  induction items as [|item items IH]; intros ts; [done|].
  cbn [make_updates]. rewrite imap_cons, IH. f_equal.
  - by destruct ts.
  - apply imap_ext. intros i x _. simpl. by rewrite lookup_tail.
Qed.

(** ** Blocks are filled as far as the limit allows *)

Lemma blocks_from_head (max_block_size : nat) (texts : list string) :
  ∀ current_block current_length,
    current_block ≠ [] →
    ∃ more rest,
      blocks_from max_block_size texts current_block current_length
      = (current_block ++ more)%list :: rest.
Proof.
  induction texts as [|text texts IH]; intros current_block current_length Hne.
  - exists [], []. simpl. destruct current_block; [done|by rewrite app_nil_r].
  - cbn [blocks_from].
    destruct ((max_block_size <? current_length + String.length text)%nat
              && negb (is_nil current_block)).
    + eexists [], _. by rewrite app_nil_r.
    + destruct (IH (current_block ++ [text])%list
                  (current_length + String.length text + 2))
        as (more & rest & ->); [by destruct current_block|].
      exists (text :: more), rest. by rewrite <- app_assoc.
Qed.

Lemma blocks_from_greedy (max_block_size : nat) (texts : list string) :
  ∀ current_block current_length,
    current_length
    = fold_right (λ x n, String.length x + 2 + n) 0 current_block →
    ∀ k block next,
      blocks_from max_block_size texts current_block current_length !! k
      = Some block →
      blocks_from max_block_size texts current_block current_length !! S k
      = Some next →
      ∃ text rest,
        next = text :: rest
        ∧ max_block_size
          < String.length (Str.join SEP (block ++ [text])).
Proof.
  induction texts as [|text texts IH];
    intros current_block current_length Hlen k block next Hk Hnext.
  - simpl in Hk, Hnext. by destruct current_block, k.
  - cbn [blocks_from] in Hk, Hnext.
    destruct (Nat.ltb_spec max_block_size (current_length + String.length text))
      as [Hover|Hin]; cbn [andb] in Hk, Hnext.
    + destruct current_block as [|x current_block]; cbn [is_nil negb] in Hk, Hnext.
      * eapply IH; [|exact Hk|exact Hnext]. simpl in Hlen |- *. lia.
      * destruct k as [|k]; simpl in Hk, Hnext.
        -- injection Hk as <-.
           destruct (blocks_from_head max_block_size texts [text]
                       (String.length text + 2) ltac:(done))
             as (more & rest & Heq).
           rewrite Heq in Hnext. injection Hnext as <-.
           exists text, more. split; [done|].
           rewrite current_length_join. lia.
        -- eapply IH; [|exact Hk|exact Hnext]. simpl. lia.
    + eapply IH; [|exact Hk|exact Hnext].
      rewrite Hlen. clear. induction current_block; simpl; lia.
Qed.

(** X25. A block is closed only when the next text does not fit: for
    two blocks that follow each other, the first one joined with the
    first text of the second is longer than [max_block_size]. *)
Theorem blocks_are_filled (max_block_size : nat) (texts : list string)
    (k : nat) (block next : list string) :
  blocks_of max_block_size texts !! k = Some block →
  blocks_of max_block_size texts !! S k = Some next →
  ∃ text rest,
    next = text :: rest
    ∧ max_block_size < String.length (Str.join SEP (block ++ [text])).
Proof. by apply blocks_from_greedy. Qed.

Lemma blocks_are_filled_witness :
  ∃ text rest,
    ["save as"] = text :: rest
    ∧ 12 < String.length (Str.join SEP (["open"; "close"] ++ [text])).
Proof.
  apply (blocks_are_filled 12 ["open"; "close"; "save as"] 0); reflexivity.
Defined.

(** ** The order of the items *)

Lemma StronglySorted_concat_imap {A B : Type} (R : relation B) (l : list A) :
  ∀ g : nat → A → list B,
    (∀ j x, StronglySorted R (g j x)) →
    (∀ j x j' x' a b, j < j' → a ∈ g j x → b ∈ g j' x' → R a b) →
    StronglySorted R (concat (imap g l)).
Proof.
  induction l as [|x l IH]; intros g Hsorted Hcross; simpl; [constructor|].
  apply StronglySorted_app_2; [|apply Hsorted|].
  - intros a b Ha Hb.
    apply elem_of_concat_imap in Hb as (j' & y' & _ & Hb).
    apply (Hcross 0 x (S j') y'); [lia|done|done].
  - apply IH; [intros; apply Hsorted|].
    intros j y j' y' a b Hlt. apply (Hcross (S j) y (S j') y'). lia.
Qed.

Lemma extract_cell_elem (file_path : string) (line_num : nat)
    (original_line : string) (col_index : nat) (part : string) (item : Item.t) :
  item ∈ extract_cell file_path line_num original_line col_index part →
  item = Item.mk file_path line_num (Str.strip part) original_line
                 (csv_cell col_index).
Proof.
  revert item. apply Forall_forall, extract_cell_Forall. by intros.
Qed.

Lemma extract_cell_sorted (file_path : string) (line_num : nat)
    (original_line : string) (col_index : nat) (part : string) :
  StronglySorted comes_before
    (extract_cell file_path line_num original_line col_index part).
Proof.
  unfold extract_cell. repeat case_match; by repeat constructor.
Qed.

Lemma extract_line_sorted (file_path : string) (line_num : nat)
    (original_line : string) :
  StronglySorted comes_before (extract_line file_path line_num original_line).
Proof.
  unfold extract_line.
  destruct (Str.is_empty _ || _ || _ || _); [constructor|].
  destruct (Str.contains "=" _).
  { repeat case_match; by repeat constructor. }
  destruct (Str.contains ";" _).
  { apply StronglySorted_concat_imap; [intros; apply extract_cell_sorted|].
    intros j x j' x' a b Hlt Ha%extract_cell_elem Hb%extract_cell_elem.
    subst a b. right. by split. }
  repeat case_match; by repeat constructor.
Qed.

(** X26. The items of a file come in the order of its lines, and the
    items of one line in the order of their columns; two items of the
    same line are both cells, so the rules [=], colon and free text give
    at most one item for a line, and no item comes twice. *)
Theorem items_in_line_and_column_order (file_path : string)
    (content : option (list string)) :
  StronglySorted comes_before (extract_translatable_content file_path content).
Proof.
  destruct content as [lines|]; simpl; [|constructor].
  apply StronglySorted_concat_imap; [intros; apply extract_line_sorted|].
  intros j x j' x' a b Hlt Ha Hb. left.
  pose proof (extract_line_line_num file_path j x) as Hj.
  pose proof (extract_line_line_num file_path j' x') as Hj'.
  rewrite Forall_forall in Hj, Hj'.
  destruct (Hj _ Ha) as [-> _], (Hj' _ Hb) as [-> _]. done.
Qed.

(** ** Joining the texts of a block and cutting the answer *)

Section JoinSplit.
Import Str StrFacts.

Lemma prefix_SEP_cons (c : ascii) (s : string) :
  is_newline c = false → String.prefix SEP (String c s) = false.
Proof.
  intros Hc. unfold SEP, LF. cbn [append String.prefix].
  destruct (ascii_dec (ascii_of_nat 10) c) as [<-|]; [|done].
  vm_compute in Hc. discriminate.
Qed.

Lemma split_whole (x : string) :
  free_of is_newline x = true → split_from SEP 0 x = [x].
Proof.
  unfold free_of. induction x as [|c x IH]; [done|]. simpl existsb.
  intros Hx. apply negb_true_iff, orb_false_elim in Hx as [Hc Hx].
  cbn [split_from]. rewrite (prefix_SEP_cons _ _ Hc).
  by rewrite IH by (by rewrite Hx).
Qed.

Lemma split_first (x rest : string) :
  free_of is_newline x = true →
  split_from SEP 0 (x ++ SEP ++ rest) = x :: split_from SEP 0 rest.
Proof.
  unfold free_of. induction x as [|c x IH].
  - intros _. by destruct rest.
  - simpl existsb. intros Hx.
    apply negb_true_iff, orb_false_elim in Hx as [Hc Hx].
    change (String c x ++ SEP ++ rest) with (String c (x ++ SEP ++ rest)).
    cbn [split_from]. rewrite (prefix_SEP_cons _ _ Hc).
    by rewrite IH by (by rewrite Hx).
Qed.

Lemma join_cons (sep x y : string) (l : list string) :
  join sep (x :: y :: l) = x ++ sep ++ join sep (y :: l).
Proof. done. Qed.

(** Texts without a line feed, joined and cut again, are the texts. *)
Lemma split_join (l : list string) :
  l ≠ [] →
  Forall (λ x, free_of is_newline x = true) l →
  split SEP (join SEP l) = l.
Proof.
  intros Hne Hl. unfold split.
  induction Hl as [|x l Hx Hl IH]; [done|].
  destruct l as [|y l]; [by apply split_whole|].
  rewrite join_cons, (split_first _ _ Hx). f_equal. by apply IH.
Qed.

Lemma rstrip_fixed (y : string) : strip y = y → rstrip_with is_space y = y.
Proof.
  intros Hy. rewrite <- Hy at 1. unfold strip.
  rewrite rstrip_with_idem. exact Hy.
Qed.

Lemma lstrip_fixed (y rest : string) :
  strip y = y → y ≠ "" → lstrip_with is_space (y ++ rest) = y ++ rest.
Proof.
  intros Hy Hne. pose proof (strip_head y) as Hhead. rewrite Hy in Hhead.
  destruct y as [|c y]; [done|]. simpl. by rewrite Hhead.
Qed.

Lemma rstrip_join (l : list string) (y : string) :
  strip y = y → y ≠ "" →
  rstrip_with is_space (join SEP (l ++ [y])) = join SEP (l ++ [y]).
Proof.
  intros Hy Hne. destruct l as [|x l]; [by apply rstrip_fixed|].
  rewrite join_snoc.
  assert (Hr : rstrip_with is_space (SEP ++ y) = SEP ++ y).
  { rewrite rstrip_with_app; by rewrite (rstrip_fixed _ Hy). }
  rewrite rstrip_with_app; rewrite Hr; [done|by destruct y].
Qed.

(** Translations that are not empty and have no white space at their
    ends: the joined answer is not changed by [strip]. *)
Lemma strip_join (l : list string) :
  l ≠ [] →
  Forall (λ y, strip y = y ∧ y ≠ "") l →
  strip (join SEP l) = join SEP l ∧ join SEP l ≠ "".
Proof.
  intros Hne Hl.
  assert (Hlast : ∃ l0 y, l = (l0 ++ [y])%list).
  { destruct (last l) as [y|] eqn:Hy.
    - apply last_Some in Hy as [l0 ->]. by exists l0, y.
    - by apply last_None in Hy. }
  destruct Hlast as (l0 & y & Heq).
  assert (Hy : strip y = y ∧ y ≠ "").
  { rewrite Heq in Hl. apply Forall_app in Hl as [_ Hl].
    by rewrite Forall_singleton in Hl. }
  destruct l as [|x l]; [done|].
  apply Forall_cons in Hl as [[Hx Hxne] _].
  assert (Hjoin : ∃ rest, join SEP (x :: l) = x ++ rest).
  { destruct l; [exists ""; simpl; by rewrite append_nil_r|by eexists]. }
  destruct Hjoin as [rest Hrest]. split.
  - unfold strip. rewrite Hrest, (lstrip_fixed _ _ Hx Hxne), <- Hrest, Heq.
    apply rstrip_join; apply Hy.
  - rewrite Hrest. by destruct x.
Qed.

End JoinSplit.

Section ParagraphService.

Variable f : string → string.
Variable max_block_size max_retries : nat.

Lemma translate_block_paragraphs (current_block : list string) (w : world) :
  current_block ≠ [] →
  Forall (λ text, free_of is_newline text = true
                  ∧ free_of is_newline (f text) = true
                  ∧ Str.strip (f text) = f text ∧ f text ≠ "")
         current_block →
  (translate_block (paragraph_service f) max_retries current_block w).1
  = List.map f current_block.
Proof.
  intros Hne Hblock.
  assert (Hsplit : Str.split SEP (Str.join SEP current_block) = current_block).
  { apply split_join; [done|]. eapply Forall_impl; [done|]. by intros t [? _]. }
  assert (Hmap : List.map f current_block ≠ []) by (by destruct current_block).
  destruct (strip_join (List.map f current_block) Hmap) as [Hstrip Hblob].
  { apply Forall_forall. intros y Hy.
    apply list_elem_of_In, in_map_iff in Hy as (t & <- & Ht).
    apply list_elem_of_In in Ht. rewrite Forall_forall in Hblock.
    by destruct (Hblock t Ht) as (_ & _ & ? & ?). }
  rewrite (translate_block_answered (paragraph_service f) max_retries
             current_block w
             (Str.join SEP (List.map f current_block))).
  - cbn [fst]. rewrite Hstrip, split_join; [|done|].
    + rewrite length_map, drop_ge, app_nil_r by lia.
      apply take_ge. by rewrite length_map.
    + apply Forall_forall. intros y Hy.
      apply list_elem_of_In, in_map_iff in Hy as (t & <- & Ht).
      apply list_elem_of_In in Ht. rewrite Forall_forall in Hblock.
      by destruct (Hblock t Ht) as (_ & ? & _).
  - unfold paragraph_service. by rewrite Hsplit.
  - done.
Qed.

(** X27. With a service that translates each paragraph of a request by
    itself, every text is replaced by its translation, in its place,
    when the texts and their translations hold no line feed and the
    translations are not empty and have no white space at their
    ends. *)
Theorem paragraph_service_translates_each_text (texts : list string)
    (w : world) :
  Forall (λ text, free_of is_newline text = true
                  ∧ free_of is_newline (f text) = true
                  ∧ Str.strip (f text) = f text ∧ f text ≠ "")
         texts →
  (translate_texts_in_blocks (paragraph_service f) max_block_size max_retries
     texts w).1
  = List.map f texts.
Proof.
  rewrite translate_texts_in_blocks_blocks.
  rewrite <- (blocks_of_concat max_block_size texts) at 1 3.
  pose proof (blocks_from_not_empty max_block_size texts [] 0) as Hne.
  fold (blocks_of max_block_size texts) in Hne.
  generalize dependent (blocks_of max_block_size texts). intros blocks Hne.
  revert w. induction Hne as [|block blocks Hblock _ IH]; intros w Hall;
    [done|].
  cbn [translate_blocks concat] in *.
  apply Forall_app in Hall as [Hb Hall].
  pose proof (translate_block_paragraphs block w Hblock Hb) as Hout.
  destruct (translate_block (paragraph_service f) max_retries block w)
    as [block_out w1].
  specialize (IH w1 Hall).
  destruct (translate_blocks (paragraph_service f) max_retries blocks w1)
    as [rest w2].
  simpl in *. by rewrite Hout, IH, map_app.
Qed.

End ParagraphService.

Lemma paragraph_service_translates_each_text_witness :
  (translate_texts_in_blocks (paragraph_service Str.upper) 12 3
     ["open"; "close"; "save as"] (World 0 [])).1
  = List.map Str.upper ["open"; "close"; "save as"].
Proof.
  apply (paragraph_service_translates_each_text Str.upper 12 3).
  repeat constructor; vm_compute; discriminate.
Defined.

(** ** The entries written: those left alone and those rewritten *)

Section Endings.
Import Str StrFacts.






End Endings.




(** An answer that holds a line feed: the entry written for the line
    holds two lines of the file. *)
Example answer_of_two_lines_gives_one_entry :
  process_file two_lines "menu.dat"
    (Some (utf_8, ["name=Menu" ++ LF; "# note" ++ LF]))
  = Some (Written "menu_translated.dat" utf_8
            ["name=Hello" ++ LF ++ "World" ++ LF; "# note" ++ LF]).
Proof. vm_compute. reflexivity. Qed.
